(** * Dijkstra's shortest paths over a weighted undirected graph (task3.py)

    A shallow embedding of [Graph], [dijkstra] and [reconstruct_path], and
    the properties of the shortest-path engine proved over it.

    Modelling choices.
    - Vertices are strings (the labels the program uses); edge weights and
      queue priorities are Python integers, hence [Z].
    - [float('infinity')] is the constructor [Inf] of [dist]; every finite
      distance the program stores is an integer.
    - [Graph.vertices] is a Python [set]: a [gset string].
    - [Graph.edges] is a [defaultdict(list)]: a [gmap] from vertices to
      adjacency lists, where reading a missing key inserts an empty list.
      That write is modelled, so the graph is threaded through [dijkstra].
    - [heapq] is taken by its contract: [heappush] adds an item and
      [heappop] removes and returns a least item for the order of tuples
      [(distance, vertex)].  That order is total, so the popped value and
      the remaining multiset do not depend on the layout of the heap.
    - A [KeyError] is an outcome of its own, and the two [while] loops
      take fuel; the theorems show how much fuel is enough. *)

From stdpp Require Import gmap strings list fin_maps.
From Stdlib Require Import ZArith.
From Stdlib Require OrderedTypeEx.

Local Open Scope Z_scope.
Set Warnings "-clear-no-such-hyp".

(** ** Outcomes of a Python computation *)

Inductive exn : Type :=
| KeyError (k : string)
| IndexError.

Inductive outcome (A : Type) : Type :=
| Ok (a : A)
| Raise (e : exn)
| OutOfFuel.

Arguments Ok {A} a.
Arguments Raise {A} e.
Arguments OutOfFuel {A}.

(** ** Distances: an integer or [float('infinity')] *)

Inductive dist : Type :=
| Fin (z : Z)
| Inf.

(** [new_distance < distances[neighbor]] with an integer on the left. *)
Definition dist_ltb (n : Z) (d : dist) : bool :=
  match d with
  | Fin m => n <? m
  | Inf => true
  end.

(** ** class Graph *)

Record Graph : Type := mkGraph {
  vertices : gset string;
  edges : gmap string (list (string * Z))
}.

(** [Graph.__init__] *)
Definition Graph_init : Graph :=
  {| vertices := ∅; edges := ∅ |}.

(** [d[k]] on a [defaultdict(list)]: the list and the dictionary after
    the read. *)
Definition defaultdict_get (d : gmap string (list (string * Z))) (k : string)
  : list (string * Z) * gmap string (list (string * Z)) :=
  match d !! k with
  | Some l => (l, d)
  | None => ([], <[k := []]> d)
  end.

(** [d[k].append(x)] on a [defaultdict(list)]. *)
Definition defaultdict_append (d : gmap string (list (string * Z)))
    (k : string) (x : string * Z) : gmap string (list (string * Z)) :=
  let '(l, d') := defaultdict_get d k in <[k := l ++ [x]]> d'.

Definition add_vertex (g : Graph) (vertex : string) : Graph :=
  {| vertices := vertices g ∪ {[vertex]}; edges := edges g |}.

Definition add_edge (g : Graph) (from_vertex to_vertex : string) (weight : Z)
  : Graph :=
  let vs := vertices g ∪ {[from_vertex]} ∪ {[to_vertex]} in
  let e1 := defaultdict_append (edges g) from_vertex (to_vertex, weight) in
  let e2 := defaultdict_append e1 to_vertex (from_vertex, weight) in
  {| vertices := vs; edges := e2 |}.

Definition get_neighbors (g : Graph) (vertex : string)
  : list (string * Z) * Graph :=
  let '(l, e) := defaultdict_get (edges g) vertex in
  (l, {| vertices := vertices g; edges := e |}).

(** The adjacency list a read of [edges[v]] yields. *)
Definition adj (g : Graph) (v : string) : list (string * Z) :=
  default [] (edges g !! v).

(** Building a graph: a sequence of method calls on a fresh [Graph]. *)
Inductive op : Type :=
| AddVertex (v : string)
| AddEdge (u v : string) (w : Z)
| GetNeighbors (v : string).

Definition apply_op (g : Graph) (o : op) : Graph :=
  match o with
  | AddVertex v => add_vertex g v
  | AddEdge u v w => add_edge g u v w
  | GetNeighbors v => snd (get_neighbors g v)
  end.

Definition build (ops : list op) : Graph := foldl apply_op Graph_init ops.

(** ** heapq on tuples [(distance, vertex)] *)

(** Python's [<] on tuples [(int, str)]. *)
Definition entry_ltb (a b : Z * string) : bool :=
  (a.1 <? b.1) || ((a.1 =? b.1) && String.ltb a.2 b.2).

Fixpoint heap_min (x : Z * string) (l : list (Z * string)) : Z * string :=
  match l with
  | [] => x
  | y :: l' => heap_min (if entry_ltb y x then y else x) l'
  end.

Fixpoint remove_one (x : Z * string) (l : list (Z * string))
  : list (Z * string) :=
  match l with
  | [] => []
  | y :: l' => if decide (x = y) then l' else y :: remove_one x l'
  end.

Definition heappush (heap : list (Z * string)) (item : Z * string)
  : list (Z * string) := item :: heap.

(** [None] on the empty heap, where the loop guard [while pq] fails. *)
Definition heappop (heap : list (Z * string))
  : option ((Z * string) * list (Z * string)) :=
  match heap with
  | [] => None
  | x :: l => let m := heap_min x l in Some (m, remove_one m heap)
  end.

(** ** dijkstra *)

(** The local variables of [dijkstra], the graph it reads, and two ghost
    fields: the sequence of [visited.add] calls and the number of
    [heappush] calls. *)
Record state : Type := mkState {
  graph : Graph;
  distances : gmap string dist;
  previous : gmap string (option string);
  pq : list (Z * string);
  visited : gset string;
  visit_log : list string;
  pushes : nat
}.

(** One iteration of [for neighbor, weight in ...]. *)
Definition relax (current_distance : Z) (current_vertex : string)
    (st : state) (e : string * Z) : outcome state :=
  let '(neighbor, weight) := e in
  if decide (neighbor ∈ visited st) then Ok st
  else
    let new_distance := current_distance + weight in
    match distances st !! neighbor with
    | None => Raise (KeyError neighbor)
    | Some dn =>
        if dist_ltb new_distance dn then
          Ok {| graph := graph st;
                distances := <[neighbor := Fin new_distance]> (distances st);
                previous := <[neighbor := Some current_vertex]> (previous st);
                pq := heappush (pq st) (new_distance, neighbor);
                visited := visited st;
                visit_log := visit_log st;
                pushes := S (pushes st) |}
        else Ok st
    end.

Fixpoint for_neighbors (current_distance : Z) (current_vertex : string)
    (l : list (string * Z)) (st : state) : outcome state :=
  match l with
  | [] => Ok st
  | e :: l' =>
      match relax current_distance current_vertex st e with
      | Ok st' => for_neighbors current_distance current_vertex l' st'
      | Raise x => Raise x
      | OutOfFuel => OutOfFuel
      end
  end.

(** The body of [while pq], after the pop of [(current_distance,
    current_vertex)] that left [pq']. *)
Definition loop_body (st : state) (current_distance : Z)
    (current_vertex : string) (pq' : list (Z * string)) : outcome state :=
  if decide (current_vertex ∈ visited st) then
    Ok {| graph := graph st; distances := distances st;
          previous := previous st; pq := pq'; visited := visited st;
          visit_log := visit_log st; pushes := pushes st |}
  else
    let '(nbrs, g') := get_neighbors (graph st) current_vertex in
    for_neighbors current_distance current_vertex nbrs
      {| graph := g'; distances := distances st;
         previous := previous st; pq := pq';
         visited := visited st ∪ {[current_vertex]};
         visit_log := visit_log st ++ [current_vertex];
         pushes := pushes st |}.

Fixpoint while_pq (fuel : nat) (st : state) : outcome state :=
  match heappop (pq st) with
  | None => Ok st
  | Some ((current_distance, current_vertex), pq') =>
      match fuel with
      | O => OutOfFuel
      | S fuel' =>
          match loop_body st current_distance current_vertex pq' with
          | Ok st' => while_pq fuel' st'
          | Raise x => Raise x
          | OutOfFuel => OutOfFuel
          end
      end
  end.

(** The state before the loop. *)
Definition dijkstra_init (g : Graph) (start_vertex : string) : state :=
  {| graph := g;
     distances := <[start_vertex := Fin 0]> (gset_to_gmap Inf (vertices g));
     previous := gset_to_gmap None (vertices g);
     pq := [(0, start_vertex)];
     visited := ∅;
     visit_log := [];
     pushes := 0 |}.

Definition dijkstra_fuel (fuel : nat) (g : Graph) (start_vertex : string)
  : outcome state :=
  while_pq fuel (dijkstra_init g start_vertex).

(** The number of entries of all adjacency lists. *)
Definition adjacency_entries (g : Graph) : nat :=
  map_fold (fun _ l n => (List.length l + n)%nat) 0%nat (edges g).

(** [dijkstra] with the fuel that is always enough (see
    [while_pq_terminates]); the final state holds the two returned
    dictionaries and the graph as the call leaves it. *)
Definition dijkstra (g : Graph) (start_vertex : string) : outcome state :=
  dijkstra_fuel (S (adjacency_entries g)) g start_vertex.

(** ** reconstruct_path *)

Fixpoint walk_back (fuel : nat) (prev : gmap string (option string))
    (current : option string) (path : list string) : outcome (list string) :=
  match current with
  | None => Ok path
  | Some c =>
      match fuel with
      | O => OutOfFuel
      | S fuel' =>
          match prev !! c with
          | None => Raise (KeyError c)
          | Some p => walk_back fuel' prev p (path ++ [c])
          end
      end
  end.

(** [Ok None] is the result [None]: no path. *)
Definition reconstruct_path_fuel (fuel : nat)
    (prev : gmap string (option string)) (start end_ : string)
  : outcome (option (list string)) :=
  match walk_back fuel prev (Some end_) [] with
  | Ok path =>
      match rev path with
      | [] => Raise IndexError
      | x :: rest =>
          if decide (x ≠ start) then Ok None else Ok (Some (x :: rest))
      end
  | Raise e => Raise e
  | OutOfFuel => OutOfFuel
  end.

(** A walk along [prev] that takes more steps than [prev] has keys repeats
    a key and never ends. *)
Definition reconstruct_path (prev : gmap string (option string))
    (start end_ : string) : outcome (option (list string)) :=
  reconstruct_path_fuel (S (size prev)) prev start end_.

(** ** create_sample_graph *)

Definition sample_edges : list (string * string * Z) :=
  [("A", "B", 4); ("A", "C", 2); ("B", "C", 1); ("B", "D", 5);
   ("C", "D", 8); ("C", "E", 10); ("D", "E", 2); ("D", "F", 6);
   ("E", "F", 3)]%string.

Definition create_sample_graph : Graph :=
  foldl (fun g '(from_v, to_v, weight) => add_edge g from_v to_v weight)
        Graph_init sample_edges.

(** ** Paths of the graph *)

(** [walk g u v d]: a path from [u] to [v] along adjacency entries, of
    total weight [d]. *)
Inductive walk (g : Graph) (u : string) : string -> Z -> Prop :=
| walk_nil : walk g u u 0
| walk_snoc x v d w :
    walk g u x d -> (v, w) ∈ adj g x -> walk g u v (d + w).

(** [v] is reachable from [u]. *)
Definition reachable (g : Graph) (u v : string) : Prop :=
  exists d, walk g u v d.

(** No edge of the graph has a negative weight. *)
Definition nonneg_weights (g : Graph) : Prop :=
  forall u v w, (v, w) ∈ adj g u -> 0 <= w.

(** Every vertex named by the adjacency structure is in the vertex set. *)
Definition wf (g : Graph) : Prop :=
  forall u v w, (v, w) ∈ adj g u -> u ∈ vertices g /\ v ∈ vertices g.

(** Every adjacency entry has its mirror. *)
Definition symmetric (g : Graph) : Prop :=
  forall u v w, (v, w) ∈ adj g u -> (u, w) ∈ adj g v.

(** * The vocabulary of the specification *)

(** What a run of the [for] loop over [l] has done to the state [st], as
    seen in [st']. *)
Record relaxed (cd : Z) (cv : string) (l : list (string * Z))
    (st st' : state) : Prop := {
  rl_graph : graph st' = graph st;
  rl_visited : visited st' = visited st;
  rl_log : visit_log st' = visit_log st;
  rl_dom_d : dom (distances st') = dom (distances st);
  rl_frame : forall y, y ∈ visited st ->
    distances st' !! y = distances st !! y /\
    previous st' !! y = previous st !! y;
  rl_change : forall y,
    (distances st' !! y = distances st !! y /\
     previous st' !! y = previous st !! y) \/
    ((y ∉ visited st) /\ exists w, (y, w) ∈ l /\
     distances st' !! y = Some (Fin (cd + w)) /\
     previous st' !! y = Some (Some cv));
  rl_mono : forall y dy, distances st !! y = Some (Fin dy) ->
    exists dy', distances st' !! y = Some (Fin dy') /\ dy' <= dy;
  rl_edges : forall y w, (y, w) ∈ l -> y ∉ visited st ->
    exists dy, distances st' !! y = Some (Fin dy) /\ dy <= cd + w;
  rl_pq_old : forall e, e ∈ pq st -> e ∈ pq st';
  rl_pq_new : forall e, e ∈ pq st' ->
    e ∈ pq st \/
    exists y w, e = (cd + w, y) /\ (y, w) ∈ l /\ (y ∉ visited st);
  rl_fin : forall y dy, distances st' !! y = Some (Fin dy) ->
    distances st !! y = Some (Fin dy) \/ (dy, y) ∈ pq st';
  rl_pushes :
    (pushes st' + length (pq st) = pushes st + length (pq st'))%nat;
  rl_push_bound : (pushes st' <= pushes st + length l)%nat
}.

(** The number of entries of the lists of an adjacency mapping, and of
    those of the vertices outside [V]. *)
Definition entries_of (m : gmap string (list (string * Z))) : nat :=
  map_fold (fun _ l n => (length l + n)%nat) 0%nat m.

Definition unvisited_entries (g : Graph) (V : gset string) : nat :=
  entries_of (filter (fun kv => kv.1 ∉ V) (edges g)).

(** The state after a stale pop. *)
Definition stale_state (st : state) (pq' : list (Z * string)) : state :=
  {| graph := graph st; distances := distances st;
     previous := previous st; pq := pq'; visited := visited st;
     visit_log := visit_log st; pushes := pushes st |}.

(** The state after [visited.add(current_vertex)] and the read of its
    neighbor list. *)
Definition visit_state (st : state) (v : string) (pq' : list (Z * string))
  : state :=
  {| graph := (get_neighbors (graph st) v).2; distances := distances st;
     previous := previous st; pq := pq';
     visited := visited st ∪ {[v]};
     visit_log := visit_log st ++ [v];
     pushes := pushes st |}.

(** The loop invariant that holds for every graph, whatever the sign of
    its weights; [g0] is the graph at the call and [s] the source. *)
Record inv (g0 : Graph) (s : string) (st : state) : Prop := {
  inv_vertices : vertices (graph st) = vertices g0;
  inv_adj : forall u, adj (graph st) u = adj g0 u;
  inv_edges : forall k,
    edges (graph st) !! k = edges g0 !! k \/
    (edges g0 !! k = None /\ edges (graph st) !! k = Some [] /\
     k ∈ visited st);
  inv_touched : forall k, k ∈ visited st ->
    is_Some (edges (graph st) !! k);
  inv_dom_d : dom (distances st) = vertices g0 ∪ {[s]};
  inv_dom_p : dom (previous st) = vertices g0;
  inv_start :
    s ∈ visited st \/ (visited st = ∅ /\ pq st = [(0, s)]);
  inv_queued : forall v d,
    distances st !! v = Some (Fin d) -> v ∉ visited st -> (d, v) ∈ pq st;
  inv_pq : forall d v, (d, v) ∈ pq st ->
    walk g0 s v d /\
    exists d', distances st !! v = Some (Fin d') /\ d' <= d;
  inv_walk : forall v d, distances st !! v = Some (Fin d) -> walk g0 s v d;
  inv_visited_fin : forall x, x ∈ visited st ->
    exists d, distances st !! x = Some (Fin d);
  inv_scanned : forall x y w, x ∈ visited st -> (y, w) ∈ adj g0 x ->
    exists d, distances st !! y = Some (Fin d);
  inv_log : visited st = list_to_set (visit_log st);
  inv_nodup : NoDup (visit_log st);
  inv_prev : forall v p, previous st !! v = Some (Some p) ->
    v <> s /\ p ∈ visited st /\
    exists d, distances st !! v = Some (Fin d);
  inv_count :
    (pushes st + unvisited_entries g0 (visited st)
     <= adjacency_entries g0)%nat
}.

(** What decreases at every iteration of [while pq]. *)
Definition measure (g0 : Graph) (st : state) : nat :=
  (length (pq st) + unvisited_entries g0 (visited st))%nat.

(** The part of the invariant that needs non-negative weights. *)
Record inv_nonneg (g0 : Graph) (s : string) (st : state) : Prop := {
  nn_start : distances st !! s = Some (Fin 0);
  nn_final : forall x d, x ∈ visited st -> walk g0 s x d ->
    exists dx, distances st !! x = Some (Fin dx) /\ dx <= d;
  nn_relaxed : forall x y w dx, x ∈ visited st -> (y, w) ∈ adj g0 x ->
    distances st !! x = Some (Fin dx) ->
    exists dy, distances st !! y = Some (Fin dy) /\ dy <= dx + w
}.

(** Where the control is: at the test of [while pq], or inside the [for]
    loop of the vertex [cv] popped with priority [cd], with the neighbors
    still to scan. *)
Inductive pc : Type :=
| AtWhile
| InFor (cd : Z) (cv : string) (rest : list (string * Z)).

(** One step of the two nested loops; a [KeyError] has no step. *)
Inductive step : pc * state -> pc * state -> Prop :=
| step_stale st d v pq' :
    heappop (pq st) = Some ((d, v), pq') -> v ∈ visited st ->
    step (AtWhile, st) (AtWhile, stale_state st pq')
| step_visit st d v pq' :
    heappop (pq st) = Some ((d, v), pq') -> v ∉ visited st ->
    step (AtWhile, st) (InFor d v (adj (graph st) v), visit_state st v pq')
| step_relax st cd cv e rest st' :
    relax cd cv st e = Ok st' ->
    step (InFor cd cv (e :: rest), st) (InFor cd cv rest, st')
| step_done st cd cv :
    step (InFor cd cv [], st) (AtWhile, st).

(** The log of [visited.add] calls lists the visited set, each vertex
    once. *)
Definition log_ok (st : state) : Prop :=
  visited st = list_to_set (visit_log st) /\ NoDup (visit_log st).

(** What a run from [c1] to [c2] keeps of a vertex [v] visited in [c1]. *)
Definition kept (v : string) (st1 st2 : state) : Prop :=
  distances st2 !! v = distances st1 !! v /\
  v ∈ visited st2 /\
  exists l, visit_log st2 = visit_log st1 ++ l /\ v ∉ l.

(** Two graphs with the same vertices and the same neighbor lists. *)
Definition same_view (g1 g2 : Graph) : Prop :=
  vertices g1 = vertices g2 /\ forall u, adj g1 u = adj g2 u.

(** Two states equal but for the key sets of their graphs. *)
Definition sim (st1 st2 : state) : Prop :=
  same_view (graph st1) (graph st2) /\
  distances st1 = distances st2 /\
  previous st1 = previous st2 /\
  pq st1 = pq st2 /\
  visited st1 = visited st2 /\
  visit_log st1 = visit_log st2 /\
  pushes st1 = pushes st2.

(** Two outcomes of the same kind, with related results. *)
Definition outcome_rel {A : Type} (R : A -> A -> Prop) (o1 o2 : outcome A)
  : Prop :=
  match o1, o2 with
  | Ok a, Ok b => R a b
  | Raise e1, Raise e2 => e1 = e2
  | OutOfFuel, OutOfFuel => True
  | _, _ => False
  end.

(** The number of [add_edge] calls of a construction. *)
Fixpoint edge_calls (ops : list op) : nat :=
  match ops with
  | [] => 0
  | AddEdge _ _ _ :: ops' => S (edge_calls ops')
  | _ :: ops' => edge_calls ops'
  end.

(** [d] is the least weight of a path from [s] to [v]. *)
Definition shortest (g : Graph) (s v : string) (d : Z) : Prop :=
  walk g s v d /\ forall d', walk g s v d' -> d <= d'.

(** A call that adds no negative weight. *)
Definition op_nonneg (o : op) : Prop :=
  match o with
  | AddEdge _ _ w => 0 <= w
  | _ => True
  end.

(** The calls of [create_sample_graph]. *)
Definition sample_ops : list op :=
  map (fun '(from_v, to_v, weight) => AddEdge from_v to_v weight)
      sample_edges.

(** A graph with a vertex out of reach: the edge A-B and the vertex C. *)
Definition island_ops : list op :=
  [AddEdge "A" "B" 1; AddVertex "C"]%string.

(** The weight of the first edge to [v] in an adjacency list. *)
Fixpoint edge_weight (l : list (string * Z)) (v : string) : option Z :=
  match l with
  | [] => None
  | (y, w) :: l' => if decide (y = v) then Some w else edge_weight l' v
  end.

(** The total edge weight of a sequence of vertices; [None] when two
    consecutive vertices are not joined by an edge. *)
Fixpoint path_weight (g : Graph) (path : list string) : option Z :=
  match path with
  | [] => Some 0
  | u :: rest =>
      match rest with
      | [] => Some 0
      | v :: _ =>
          match edge_weight (adj g u) v, path_weight g rest with
          | Some w, Some r => Some (w + r)
          | _, _ => None
          end
      end
  end.

(** What the run on the sample graph from A returns. *)
Definition sample_result (st : state) : Prop :=
  distances st !! "A"%string = Some (Fin 0) /\
  distances st !! "B"%string = Some (Fin 3) /\
  distances st !! "C"%string = Some (Fin 2) /\
  distances st !! "D"%string = Some (Fin 8) /\
  distances st !! "E"%string = Some (Fin 10) /\
  distances st !! "F"%string = Some (Fin 13) /\
  reconstruct_path (previous st) "A" "F"
  = Ok (Some ["A"; "C"; "B"; "D"; "E"; "F"]%string).

(** What the specification expects of it. *)
Definition sample_expected (st : state) : Prop :=
  distances st !! "A"%string = Some (Fin 0) /\
  distances st !! "B"%string = Some (Fin 3) /\
  distances st !! "C"%string = Some (Fin 2) /\
  distances st !! "D"%string = Some (Fin 7) /\
  distances st !! "E"%string = Some (Fin 9) /\
  distances st !! "F"%string = Some (Fin 12) /\
  reconstruct_path (previous st) "A" "F"
  = Ok (Some ["A"; "C"; "B"; "D"; "F"]%string) /\
  path_weight create_sample_graph ["A"; "C"; "B"; "D"; "F"]%string
  = Some 12.

(** A point of the run on the sample graph from A: inside the [for] loop
    of the first vertex. *)
Definition sample_c1 : pc * state :=
  (InFor 0 "A" (adj create_sample_graph "A"),
   visit_state (dijkstra_init create_sample_graph "A") "A" []).

(** The end of the call on the sample graph from A. *)
Definition sample_c2 : pc * state :=
  (AtWhile,
   match dijkstra create_sample_graph "A" with
   | Ok st => st
   | _ => dijkstra_init create_sample_graph "A"
   end).

(** ** Predecessor chains, paths as vertex sequences, visit order *)

(** [back_links prev l]: every vertex of [l] has the next one as its
    predecessor in [prev]. *)
Fixpoint back_links (prev : gmap string (option string)) (l : list string)
  : Prop :=
  match l with
  | x :: (y :: _) as l' => prev !! x = Some (Some y) /\ back_links prev l'
  | _ => True
  end.

(** [path_walk g path d]: [path] is a sequence of vertices joined by
    adjacency entries of total weight [d]. *)
Inductive path_walk (g : Graph) : list string -> Z -> Prop :=
| path_walk_one u : path_walk g [u] 0
| path_walk_snoc l x v d w :
    path_walk g (l ++ [x]) d -> (v, w) ∈ adj g x ->
    path_walk g (l ++ [x; v]) (d + w).

(** [p] occurs before [v] in [l]. *)
Definition before (l : list string) (p v : string) : Prop :=
  exists l1 l2 l3, l = l1 ++ p :: l2 ++ v :: l3.

(** The part of the invariant about the predecessor map: it links every
    vertex with a finite distance, but the source, to a neighbor visited
    before it, over an edge that accounts for its distance. *)
Record inv_tree (g0 : Graph) (s : string) (st : state) : Prop := {
  tr_start : distances st !! s = Some (Fin 0);
  tr_edge : forall v p, previous st !! v = Some (Some p) ->
    exists dp w, distances st !! p = Some (Fin dp) /\ (v, w) ∈ adj g0 p /\
      distances st !! v = Some (Fin (dp + w));
  tr_pred : forall v d, distances st !! v = Some (Fin d) -> v <> s ->
    exists p, previous st !! v = Some (Some p);
  tr_order : forall v p, previous st !! v = Some (Some p) ->
    v ∈ visited st -> before (visit_log st) p v
}.

(** The part of the invariant about the order of the visits, for
    non-negative weights: a visited vertex is no farther than any queue
    entry, nor than any vertex visited after it. *)
Record inv_order (g0 : Graph) (s : string) (st : state) : Prop := {
  or_pq : forall x d v, x ∈ visited st -> (d, v) ∈ pq st ->
    exists dx, distances st !! x = Some (Fin dx) /\ dx <= d;
  or_log : forall x y, before (visit_log st) x y ->
    exists dx dy, distances st !! x = Some (Fin dx) /\
      distances st !! y = Some (Fin dy) /\ dx <= dy
}.

(** The vertices a call names as a vertex or as an endpoint. *)
Definition op_vertices (o : op) : list string :=
  match o with
  | AddVertex v => [v]
  | AddEdge u v _ => [u; v]
  | GetNeighbors _ => []
  end.

(** How often [u] is an endpoint of an [add_edge] call; a loop at [u]
    counts twice. *)
Fixpoint endpoint_count (ops : list op) (u : string) : nat :=
  match ops with
  | [] => 0
  | AddEdge a b _ :: ops' =>
      ((if decide (u = a) then 1 else 0) + (if decide (u = b) then 1 else 0)
       + endpoint_count ops' u)%nat
  | _ :: ops' => endpoint_count ops' u
  end.

(** * The graph operations *)

Section GraphOps.

Implicit Types (d : gmap string (list (string * Z))) (g : Graph).

Lemma defaultdict_get_fst d k :
  (defaultdict_get d k).1 = default [] (d !! k).
Proof. unfold defaultdict_get. by destruct (d !! k). Qed.

Lemma defaultdict_get_snd d k u :
  default [] ((defaultdict_get d k).2 !! u) = default [] (d !! u).
Proof.
  unfold defaultdict_get. destruct (d !! k) eqn:E; simpl; [done|].
  destruct (decide (k = u)) as [->|Hne].
  - by rewrite lookup_insert_eq, E.
  - by rewrite lookup_insert_ne.
Qed.

Lemma defaultdict_append_lookup d k x u :
  default [] (defaultdict_append d k x !! u) =
  if decide (u = k) then default [] (d !! k) ++ [x] else default [] (d !! u).
Proof.
  unfold defaultdict_append.
  pose proof (defaultdict_get_fst d k) as H1.
  pose proof (defaultdict_get_snd d k u) as H2.
  destruct (defaultdict_get d k) as [l d']; simpl in *. subst l.
  case_decide as Hu.
  - subst u. by rewrite lookup_insert_eq.
  - by rewrite lookup_insert_ne.
Qed.

Lemma adj_add_vertex g v u : adj (add_vertex g v) u = adj g u.
Proof. done. Qed.

Lemma adj_add_edge g a b w u :
  adj (add_edge g a b w) u =
  (adj g u ++ (if decide (u = a) then [(b, w)] else []))
    ++ (if decide (u = b) then [(a, w)] else []).
Proof.
  unfold adj, add_edge; simpl.
  rewrite defaultdict_append_lookup.
  destruct (decide (u = b)) as [->|Hb].
  - rewrite defaultdict_append_lookup.
    case_decide; subst; by rewrite ?app_nil_r.
  - rewrite defaultdict_append_lookup.
    case_decide; subst; by rewrite ?app_nil_r.
Qed.

Lemma get_neighbors_fst g v : (get_neighbors g v).1 = adj g v.
Proof.
  unfold get_neighbors, adj.
  pose proof (defaultdict_get_fst (edges g) v).
  by destruct (defaultdict_get (edges g) v).
Qed.

Lemma get_neighbors_adj g v u : adj (get_neighbors g v).2 u = adj g u.
Proof.
  unfold get_neighbors, adj.
  pose proof (defaultdict_get_snd (edges g) v u).
  by destruct (defaultdict_get (edges g) v).
Qed.

Lemma get_neighbors_vertices g v :
  vertices (get_neighbors g v).2 = vertices g.
Proof.
  unfold get_neighbors. by destruct (defaultdict_get (edges g) v).
Qed.

Lemma adj_Graph_init u : adj Graph_init u = [].
Proof. done. Qed.

Lemma elem_of_adj_add_edge g a b w u y z :
  (y, z) ∈ adj (add_edge g a b w) u <->
  (y, z) ∈ adj g u \/ (u = a /\ y = b /\ z = w) \/ (u = b /\ y = a /\ z = w).
Proof.
  rewrite adj_add_edge, !elem_of_app.
  destruct (decide (u = a)), (decide (u = b));
    rewrite ?elem_of_nil, ?list_elem_of_singleton; naive_solver.
Qed.

Lemma build_snoc ops o : build (ops ++ [o]) = apply_op (build ops) o.
Proof. unfold build. by rewrite foldl_app. Qed.

Lemma apply_op_adj_mono g o u e : e ∈ adj g u -> e ∈ adj (apply_op g o) u.
Proof.
  destruct o as [v|a b w|v]; simpl.
  - done.
  - destruct e. rewrite elem_of_adj_add_edge. auto.
  - by rewrite get_neighbors_adj.
Qed.

Lemma apply_op_vertices_mono g o v :
  v ∈ vertices g -> v ∈ vertices (apply_op g o).
Proof.
  destruct o as [x|a b w|x]; simpl.
  - set_solver.
  - set_solver.
  - by rewrite get_neighbors_vertices.
Qed.

Lemma apply_op_symmetric g o : symmetric g -> symmetric (apply_op g o).
Proof.
  intros Hs. destruct o as [x|a b w|x]; simpl.
  - done.
  - intros u v z. rewrite !elem_of_adj_add_edge.
    intros [H|[H|H]]; [left; by apply Hs | naive_solver | naive_solver].
  - intros u v z. rewrite !get_neighbors_adj. apply Hs.
Qed.

Lemma apply_op_wf g o : wf g -> wf (apply_op g o).
Proof.
  intros Hw. destruct o as [x|a b w|x]; simpl.
  - intros u v z H. destruct (Hw u v z H). set_solver.
  - intros u v z. rewrite elem_of_adj_add_edge. simpl.
    intros [H|[H|H]]; [destruct (Hw u v z H)|..]; set_solver.
  - intros u v z. rewrite get_neighbors_adj, get_neighbors_vertices.
    apply Hw.
Qed.

Lemma foldl_apply_op_adj_mono ops g u e :
  e ∈ adj g u -> e ∈ adj (foldl apply_op g ops) u.
Proof.
  revert g. induction ops as [|o ops IH]; intros g H; simpl; [done|].
  by apply IH, apply_op_adj_mono.
Qed.

Lemma foldl_apply_op_vertices_mono ops g v :
  v ∈ vertices g -> v ∈ vertices (foldl apply_op g ops).
Proof.
  revert g. induction ops as [|o ops IH]; intros g H; simpl; [done|].
  by apply IH, apply_op_vertices_mono.
Qed.

Lemma build_symmetric ops : symmetric (build ops).
Proof.
  induction ops as [|o ops IH] using rev_ind.
  - intros u v w. by rewrite adj_Graph_init, elem_of_nil.
  - rewrite build_snoc. by apply apply_op_symmetric.
Qed.

Lemma build_wf ops : wf (build ops).
Proof.
  induction ops as [|o ops IH] using rev_ind.
  - intros u v w. by rewrite adj_Graph_init, elem_of_nil.
  - rewrite build_snoc. by apply apply_op_wf.
Qed.

End GraphOps.

(** C4. After [add_edge(u, v, w)], whatever was built before and whatever
    [add_vertex], [add_edge] or [get_neighbors] calls follow, [u] and [v]
    are vertices, [(v, w)] is in the neighbor list of [u] and [(u, w)] in
    that of [v]; and every graph built by these operations is symmetric. *)
Theorem add_edge_symmetric (before after : list op) (u v : string) (w : Z) :
  let g := build (before ++ AddEdge u v w :: after) in
  u ∈ vertices g /\ v ∈ vertices g /\
  (v, w) ∈ adj g u /\ (u, w) ∈ adj g v /\
  symmetric g.
Proof.
  intros g. subst g. split_and!; try apply build_symmetric.
  all: unfold build; rewrite foldl_app; simpl.
  - apply foldl_apply_op_vertices_mono. simpl. set_solver.
  - apply foldl_apply_op_vertices_mono. simpl. set_solver.
  - apply foldl_apply_op_adj_mono. rewrite elem_of_adj_add_edge. auto.
  - apply foldl_apply_op_adj_mono. rewrite elem_of_adj_add_edge. auto.
Qed.

(** * The priority queue *)

Section Heap.

Implicit Types (x e : Z * string) (l heap : list (Z * string)).

Lemma heap_min_in x l : heap_min x l ∈ x :: l.
Proof.
  revert x. induction l as [|y l IH]; intros x; simpl.
  - apply list_elem_of_here.
  - specialize (IH (if entry_ltb y x then y else x)).
    apply elem_of_cons in IH as [->|IH].
    + destruct (entry_ltb y x); set_solver.
    + set_solver.
Qed.

Lemma entry_ltb_fst x y : entry_ltb y x = true -> y.1 <= x.1.
Proof.
  unfold entry_ltb. intros [H|H]%orb_true_iff.
  - apply Z.ltb_lt in H. lia.
  - apply andb_true_iff in H as [H _]. apply Z.eqb_eq in H. lia.
Qed.

Lemma entry_ltb_false_fst x y : entry_ltb y x = false -> x.1 <= y.1.
Proof.
  unfold entry_ltb. intros [H _]%orb_false_iff.
  apply Z.ltb_ge in H. lia.
Qed.

Lemma heap_min_le x l e : e ∈ x :: l -> (heap_min x l).1 <= e.1.
Proof.
  revert x e. induction l as [|y l IH]; intros x e He; simpl.
  - apply list_elem_of_singleton in He as ->. lia.
  - set (m := if entry_ltb y x then y else x).
    assert (m.1 <= x.1 /\ m.1 <= y.1) as [Hx Hy].
    { subst m. destruct (entry_ltb y x) eqn:E.
      - apply entry_ltb_fst in E. lia.
      - apply entry_ltb_false_fst in E. lia. }
    pose proof (IH m m (list_elem_of_here _ _)) as Hm.
    apply elem_of_cons in He as [->|He]; [lia|].
    apply elem_of_cons in He as [->|He]; [lia|].
    apply IH. by apply list_elem_of_further.
Qed.

Lemma remove_one_length x l :
  x ∈ l -> length l = S (length (remove_one x l)).
Proof.
  induction l as [|y l IH]; simpl; intros H.
  - by apply elem_of_nil in H.
  - case_decide as E; [done|]. simpl. f_equal. apply IH.
    apply elem_of_cons in H as [->|H]; [done|exact H].
Qed.

Lemma remove_one_subseteq x l e : e ∈ remove_one x l -> e ∈ l.
Proof.
  induction l as [|y l IH]; simpl; [done|].
  case_decide; set_solver.
Qed.

Lemma remove_one_other x l e : e ∈ l -> e = x \/ e ∈ remove_one x l.
Proof.
  induction l as [|y l IH]; simpl; intros H.
  - by apply elem_of_nil in H.
  - case_decide as E; set_solver.
Qed.

Lemma heappop_None heap : heappop heap = None <-> heap = [].
Proof. by destruct heap. Qed.

Lemma heappop_Some heap d v heap' :
  heappop heap = Some ((d, v), heap') ->
  (d, v) ∈ heap /\
  (forall e, e ∈ heap -> d <= e.1) /\
  length heap = S (length heap') /\
  (forall e, e ∈ heap' -> e ∈ heap) /\
  (forall e, e ∈ heap -> e = (d, v) \/ e ∈ heap').
Proof.
  destruct heap as [|x l]; [done|]. unfold heappop.
  intros [= Hm <-].
  pose proof (heap_min_in x l) as Hin. rewrite Hm in Hin.
  split_and!.
  - done.
  - intros e He. pose proof (heap_min_le x l e He) as H.
    by rewrite Hm in H.
  - rewrite <- Hm in Hin. by apply (remove_one_length _ (x :: l)).
  - apply (remove_one_subseteq _ (x :: l)).
  - rewrite <- Hm. apply (remove_one_other _ (x :: l)).
Qed.

Lemma string_ltb_lt a b :
  String.ltb a b = true <-> OrderedTypeEx.String_as_OT.lt a b.
Proof.
  unfold String.ltb. rewrite <- OrderedTypeEx.String_as_OT.cmp_lt.
  unfold OrderedTypeEx.String_as_OT.cmp.
  destruct (String.compare a b); split; congruence.
Qed.

Lemma string_ltb_trans a b c :
  String.ltb a b = true -> String.ltb b c = true -> String.ltb a c = true.
Proof.
  rewrite !string_ltb_lt. apply OrderedTypeEx.String_as_OT.lt_trans.
Qed.

Lemma string_ltb_irrefl a : String.ltb a a = false.
Proof.
  unfold String.ltb. pose proof (String.compare_antisym a a) as H.
  destruct (String.compare a a); simpl in H; congruence.
Qed.

Lemma string_ltb_trichotomy a b :
  String.ltb a b = true \/ a = b \/ String.ltb b a = true.
Proof.
  unfold String.ltb. rewrite (String.compare_antisym b a).
  destruct (String.compare a b) eqn:E; simpl; auto.
  right. left. by apply String.compare_eq_iff.
Qed.

Lemma entry_ltb_irrefl x : entry_ltb x x = false.
Proof.
  unfold entry_ltb. rewrite Z.ltb_irrefl, string_ltb_irrefl.
  by rewrite andb_false_r.
Qed.

Lemma entry_ltb_spec x y :
  entry_ltb x y = true <->
  x.1 < y.1 \/ (x.1 = y.1 /\ String.ltb x.2 y.2 = true).
Proof.
  unfold entry_ltb.
  rewrite orb_true_iff, andb_true_iff, Z.ltb_lt, Z.eqb_eq. tauto.
Qed.

Lemma entry_ltb_trans x y z :
  entry_ltb x y = true -> entry_ltb y z = true -> entry_ltb x z = true.
Proof.
  rewrite !entry_ltb_spec. intros [H1|[H1 H1']] [H2|[H2 H2']]; try (left; lia).
  right. split; [lia|]. by apply string_ltb_trans with y.2.
Qed.

Lemma entry_ltb_trichotomy x y :
  entry_ltb x y = true \/ x = y \/ entry_ltb y x = true.
Proof.
  rewrite !entry_ltb_spec. destruct x as [a u], y as [b v]; simpl.
  destruct (Z.lt_trichotomy a b) as [H|[->|H]]; [auto| |auto].
  destruct (string_ltb_trichotomy u v) as [H|[->|H]]; auto.
Qed.

(** From [x <= y] and [y <= z] to [x <= z] in the order of tuples. *)
Lemma entry_ltb_false_trans x y z :
  entry_ltb y x = false -> entry_ltb z y = false -> entry_ltb z x = false.
Proof.
  intros H1 H2. destruct (entry_ltb z x) eqn:E; [|done].
  destruct (entry_ltb_trichotomy x y) as [H|[->|H]]; [|congruence..].
  pose proof (entry_ltb_trans _ _ _ E H). congruence.
Qed.

Lemma heap_min_least x l e : e ∈ x :: l -> entry_ltb e (heap_min x l) = false.
Proof.
  revert x e. induction l as [|y l IH]; intros x e He; simpl.
  - apply list_elem_of_singleton in He as ->. apply entry_ltb_irrefl.
  - set (m := if entry_ltb y x then y else x).
    assert (entry_ltb x m = false /\ entry_ltb y m = false) as [Hx Hy].
    { subst m. destruct (entry_ltb y x) eqn:E.
      - split; [|apply entry_ltb_irrefl].
        destruct (entry_ltb x y) eqn:E'; [|done].
        pose proof (entry_ltb_trans _ _ _ E E') as H.
        by rewrite entry_ltb_irrefl in H.
      - split; [apply entry_ltb_irrefl|done]. }
    pose proof (IH m m (list_elem_of_here _ _)) as Hm.
    apply elem_of_cons in He as [->|He].
    { by apply entry_ltb_false_trans with m. }
    apply elem_of_cons in He as [->|He].
    { by apply entry_ltb_false_trans with m. }
    apply IH. by apply list_elem_of_further.
Qed.

Lemma remove_one_perm x l : x ∈ l -> l ≡ₚ x :: remove_one x l.
Proof.
  induction l as [|y l IH]; simpl; intros H.
  - by apply elem_of_nil in H.
  - case_decide as E; [by subst|].
    apply elem_of_cons in H as [->|H]; [done|].
    rewrite (IH H) at 1. apply Permutation_swap.
Qed.

(** The contract of [heapq.heappop] that the model meets: the popped item
    is least for the order of tuples, and the heap loses that one item. *)
Lemma heappop_contract heap m heap' :
  heappop heap = Some (m, heap') ->
  heap ≡ₚ m :: heap' /\ forall e, e ∈ heap -> entry_ltb e m = false.
Proof.
  destruct heap as [|x l]; [done|]. unfold heappop.
  intros [= <- <-]. split.
  - apply (remove_one_perm _ (x :: l)), heap_min_in.
  - apply heap_min_least.
Qed.

End Heap.

(** * The inner loop: relaxing the neighbors of the current vertex *)

Section Relax.

Variables (cd : Z) (cv : string).

Lemma relaxed_nil st : relaxed cd cv [] st st.
Proof.
  split; try done; eauto with lia.
  intros y w Hw. by apply elem_of_nil in Hw.
Qed.

Lemma relaxed_skip l e st st' :
  relaxed cd cv l st st' ->
  (e.1 ∉ visited st ->
   exists dy, distances st' !! e.1 = Some (Fin dy) /\ dy <= cd + e.2) ->
  relaxed cd cv (l ++ [e]) st st'.
Proof.
  intros [] He. split; try done.
  - intros y. destruct (rl_change0 y) as [H|(Hy & w & Hw & H)]; [by left|].
    right. split; [done|]. exists w. rewrite elem_of_app. auto.
  - intros y w [Hw|Heq%list_elem_of_singleton]%elem_of_app Hy; [eauto|].
    subst e. by apply He.
  - intros x Hx. destruct (rl_pq_new0 x Hx) as [H|(y & w & -> & Hw & Hy)];
      [by left|].
    right. exists y, w. rewrite elem_of_app. auto.
  - rewrite length_app. simpl. lia.
Qed.

Lemma relax_step l e st st1 st2 :
  relaxed cd cv l st st1 ->
  relax cd cv st1 e = Ok st2 ->
  relaxed cd cv (l ++ [e]) st st2.
Proof.
  intros Hr Hx. destruct e as [y w]. unfold relax in Hx.
  pose proof (rl_visited _ _ _ _ _ Hr) as Hvis.
  case_decide as Hy.
  { injection Hx as <-. apply relaxed_skip; [done|]. simpl.
    rewrite Hvis in Hy. done. }
  destruct (distances st1 !! y) as [dn|] eqn:Hdn; [|done].
  destruct (dist_ltb (cd + w) dn) eqn:Hlt; injection Hx as <-.
  2:{ apply relaxed_skip; [done|]. simpl. intros _.
      destruct dn as [m|]; [|done]. simpl in Hlt.
      apply Z.ltb_ge in Hlt. eauto. }
  rewrite Hvis in Hy. destruct Hr. split; simpl.
  - done.
  - done.
  - done.
  - rewrite dom_insert_L, rl_dom_d0.
    apply (elem_of_dom_2 (distances st1)) in Hdn. set_solver.
  - intros z Hz. assert (y <> z) by congruence.
    rewrite !lookup_insert_ne by done. auto.
  - intros z. destruct (decide (y = z)) as [<-|Hne].
    + right. split; [done|]. exists w.
      rewrite !lookup_insert_eq, elem_of_app, list_elem_of_singleton. auto.
    + rewrite !lookup_insert_ne by done.
      destruct (rl_change0 z) as [H|(Hz & w' & Hw' & H)]; [by left|].
      right. split; [done|]. exists w'. rewrite elem_of_app. auto.
  - intros z dz Hz. destruct (decide (y = z)) as [<-|Hne].
    + rewrite lookup_insert_eq. eexists; split; [done|].
      destruct (rl_mono0 y dz Hz) as (dy' & Hdy' & Hle).
      rewrite Hdn in Hdy'. injection Hdy' as ->. simpl in Hlt.
      apply Z.ltb_lt in Hlt. lia.
    + rewrite lookup_insert_ne by done. eauto.
  - intros z w' [Hw'|[= -> ->]%list_elem_of_singleton]%elem_of_app Hz.
    + destruct (decide (y = z)) as [<-|Hne].
      * rewrite lookup_insert_eq. eexists; split; [done|].
        destruct (rl_edges0 y w' Hw' Hz) as (dy & Hdy & Hle).
        rewrite Hdn in Hdy. injection Hdy as ->. simpl in Hlt.
        apply Z.ltb_lt in Hlt. lia.
      * rewrite lookup_insert_ne by done. eauto.
    + rewrite lookup_insert_eq. eexists; split; [done|lia].
  - intros x Hx. unfold heappush. apply list_elem_of_further. auto.
  - intros x [->|Hx]%elem_of_cons.
    + right. exists y, w.
      rewrite elem_of_app, list_elem_of_singleton. auto.
    + destruct (rl_pq_new0 x Hx) as [H|(z & w' & -> & Hw' & Hz)];
        [by left|].
      right. exists z, w'. rewrite elem_of_app. auto.
  - intros z dz. unfold heappush. destruct (decide (y = z)) as [<-|Hne].
    + rewrite lookup_insert_eq. intros [= <-]. right.
      apply list_elem_of_here.
    + rewrite lookup_insert_ne by done. intros Hz.
      destruct (rl_fin0 z dz Hz) as [H|H]; [by left|].
      right. by apply list_elem_of_further.
  - lia.
  - rewrite length_app. simpl. lia.
Qed.

End Relax.

Section ForNeighbors.

Variables (cd : Z) (cv : string).

Lemma for_neighbors_app l1 l2 st :
  for_neighbors cd cv (l1 ++ l2) st =
  match for_neighbors cd cv l1 st with
  | Ok st' => for_neighbors cd cv l2 st'
  | Raise x => Raise x
  | OutOfFuel => OutOfFuel
  end.
Proof.
  revert st. induction l1 as [|e l1 IH]; intros st; simpl; [done|].
  destruct (relax cd cv st e); auto.
Qed.

Lemma relax_ok st e :
  e.1 ∈ visited st \/ e.1 ∈ dom (distances st) ->
  exists st', relax cd cv st e = Ok st'.
Proof.
  destruct e as [y w]; simpl. intros H. unfold relax.
  case_decide; [eauto|].
  destruct H as [H|H]; [done|].
  apply elem_of_dom in H as [dn ->].
  destruct (dist_ltb (cd + w) dn); eauto.
Qed.

(** The loop raises no [KeyError] when every neighbor it must look up
    has a distance, and then it has relaxed every entry of [l]. *)
Lemma for_neighbors_spec l st :
  (forall y w, (y, w) ∈ l -> y ∈ visited st \/ y ∈ dom (distances st)) ->
  exists st', for_neighbors cd cv l st = Ok st' /\ relaxed cd cv l st st'.
Proof.
  induction l as [|e l IH] using rev_ind; intros Hl.
  - exists st. split; [done|apply relaxed_nil].
  - destruct IH as (st1 & Hrun & Hr).
    { intros y w Hw. apply (Hl y w). rewrite elem_of_app. auto. }
    destruct (relax_ok st1 e) as [st2 Hst2].
    { rewrite (rl_visited _ _ _ _ _ Hr), (rl_dom_d _ _ _ _ _ Hr).
      destruct e as [y w]. apply (Hl y w).
      rewrite elem_of_app, list_elem_of_singleton. auto. }
    exists st2. split.
    + rewrite for_neighbors_app, Hrun. simpl. by rewrite Hst2.
    + by apply relax_step with st1.
Qed.

End ForNeighbors.

(** * Adjacency entries not yet scanned: the termination measure *)

Section Measure.

Implicit Types (m : gmap string (list (string * Z))) (V : gset string).

Lemma entries_of_delete m i l :
  m !! i = Some l ->
  entries_of m = (length l + entries_of (delete i m))%nat.
Proof.
  intros H. unfold entries_of.
  rewrite (map_fold_delete_L _ _ i l m); [done| |done].
  intros. lia.
Qed.

Lemma adjacency_entries_unvisited g :
  adjacency_entries g = unvisited_entries g ∅.
Proof.
  unfold adjacency_entries, unvisited_entries, entries_of.
  rewrite map_filter_id; [done|]. intros i x _. set_solver.
Qed.

Lemma unvisited_entries_visit g V v :
  v ∉ V ->
  (unvisited_entries g (V ∪ {[v]}) + length (adj g v))%nat =
  unvisited_entries g V.
Proof.
  intros Hv. unfold unvisited_entries, adj.
  destruct (edges g !! v) as [l|] eqn:E; simpl.
  - rewrite (entries_of_delete (filter (fun kv => kv.1 ∉ V) (edges g)) v l).
    2:{ by apply map_lookup_filter_Some. }
    rewrite <- map_filter_delete.
    replace (filter (fun kv => kv.1 ∉ V ∪ {[v]}) (edges g))
      with (filter (fun kv => kv.1 ∉ V) (delete v (edges g))); [lia|].
    apply map_eq. intros i. apply option_eq. intros x.
    rewrite !map_lookup_filter_Some, lookup_delete_Some. simpl.
    set_solver.
  - replace (filter (fun kv => kv.1 ∉ V ∪ {[v]}) (edges g))
      with (filter (fun kv => kv.1 ∉ V) (edges g)); [lia|].
    apply map_eq. intros i. apply option_eq. intros x.
    rewrite !map_lookup_filter_Some. simpl.
    split; [|set_solver]. intros [Hi Hn]. split; [done|].
    assert (i <> v) by congruence. set_solver.
Qed.

End Measure.

(** * The main loop *)

Section MainLoop.

Variables (g0 : Graph) (s : string).
Hypothesis g0_wf : wf g0.

Lemma loop_body_stale st d v pq' :
  v ∈ visited st -> loop_body st d v pq' = Ok (stale_state st pq').
Proof. intros H. unfold loop_body. by rewrite decide_True. Qed.

Lemma loop_body_visit st d v pq' :
  v ∉ visited st ->
  loop_body st d v pq' =
  for_neighbors d v (adj (graph st) v) (visit_state st v pq').
Proof.
  intros H. unfold loop_body. rewrite decide_False by done.
  unfold visit_state. rewrite <- get_neighbors_fst.
  by destruct (get_neighbors (graph st) v).
Qed.

Lemma dijkstra_init_inv : inv g0 s (dijkstra_init g0 s).
Proof.
  split; simpl; try done.
  - by left.
  - rewrite dom_insert_L, dom_gset_to_gmap. set_solver.
  - by rewrite dom_gset_to_gmap.
  - by right.
  - intros v d. destruct (decide (s = v)) as [<-|Hne].
    + rewrite lookup_insert_eq. intros [= <-] _. apply list_elem_of_here.
    + rewrite lookup_insert_ne by done.
      by intros [_ ?]%lookup_gset_to_gmap_Some.
  - intros d v [= -> ->]%list_elem_of_singleton. split; [constructor|].
    exists 0. by rewrite lookup_insert_eq.
  - intros v d. destruct (decide (s = v)) as [<-|Hne].
    + rewrite lookup_insert_eq. intros [= <-]. constructor.
    + rewrite lookup_insert_ne by done.
      by intros [_ ?]%lookup_gset_to_gmap_Some.
  - constructor.
  - by intros v p [_ ?]%lookup_gset_to_gmap_Some.
  - rewrite adjacency_entries_unvisited. lia.
Qed.

Lemma stale_state_inv st d v pq' :
  inv g0 s st ->
  heappop (pq st) = Some ((d, v), pq') ->
  v ∈ visited st ->
  inv g0 s (stale_state st pq').
Proof.
  intros [] (Hin & Hmin & Hlen & Hsub & Hrest)%heappop_Some Hv.
  split; simpl; try done.
  - destruct inv_start0 as [H|[H _]]; [by left|set_solver].
  - intros y dy Hy Hny. destruct (Hrest (dy, y)) as [[= -> ->]|H]; eauto.
    done.
  - intros dy y Hy. eauto.
Qed.

Lemma visit_state_inv st d v pq' st' :
  inv g0 s st ->
  heappop (pq st) = Some ((d, v), pq') ->
  v ∉ visited st ->
  relaxed d v (adj g0 v) (visit_state st v pq') st' ->
  inv g0 s st'.
Proof.
  intros I (Hin & Hmin & Hlen & Hsub & Hrest)%heappop_Some Hv R.
  destruct (inv_pq _ _ _ I d v Hin) as (Hwalk & dv & Hdv & Hdv_le).
  assert (Hs : s ∈ visited st ∪ {[v]}).
  { destruct (inv_start _ _ _ I) as [H|[_ H]]; [set_solver|].
    rewrite H in Hin. apply list_elem_of_singleton in Hin as [= -> ->].
    set_solver. }
  destruct R; simpl in *.
  assert (Hfin : forall x, x ∈ visited st ∪ {[v]} ->
            exists dx, distances st' !! x = Some (Fin dx)).
  { intros x Hx. destruct (rl_frame0 x Hx) as [-> _].
    apply elem_of_union in Hx as [Hx| ->%elem_of_singleton]; [|eauto].
    by apply (inv_visited_fin _ _ _ I). }
  split.
  - rewrite rl_graph0, get_neighbors_vertices. apply I.
  - intros u. rewrite rl_graph0, get_neighbors_adj. apply I.
  - intros k. rewrite rl_graph0, rl_visited0.
    unfold get_neighbors, defaultdict_get.
    destruct (edges (graph st) !! v) as [l|] eqn:E; simpl.
    + destruct (inv_edges _ _ _ I k) as [H|(H1 & H2 & H3)]; [by left|].
      right. set_solver.
    + destruct (decide (v = k)) as [<-|Hne].
      * rewrite lookup_insert_eq.
        destruct (inv_edges _ _ _ I v) as [H|(H1 & H2 & H3)]; [|done].
        right. rewrite <- H, E. set_solver.
      * rewrite lookup_insert_ne by done.
        destruct (inv_edges _ _ _ I k) as [H|(H1 & H2 & H3)]; [by left|].
        right. set_solver.
  - intros k Hk. rewrite rl_graph0. rewrite rl_visited0 in Hk.
    unfold get_neighbors, defaultdict_get.
    destruct (edges (graph st) !! v) as [l|] eqn:E; simpl.
    + apply elem_of_union in Hk as [Hk| ->%elem_of_singleton].
      * by apply (inv_touched _ _ _ I).
      * by rewrite E.
    + destruct (decide (v = k)) as [<-|Hne].
      * by rewrite lookup_insert_eq.
      * rewrite lookup_insert_ne by done.
        apply (inv_touched _ _ _ I). set_solver.
  - rewrite rl_dom_d0. apply I.
  - rewrite <- (inv_dom_p _ _ _ I). apply set_eq. intros y.
    destruct (rl_change0 y) as [[_ H]|(Hy & w & Hw & Hd & Hp)].
    + by rewrite !elem_of_dom, H.
    + split; [intros _|intros _; apply elem_of_dom; eauto].
      rewrite (inv_dom_p _ _ _ I).
      apply (elem_of_dom_2 (distances st')) in Hd.
      rewrite rl_dom_d0, (inv_dom_d _ _ _ I) in Hd. set_solver.
  - left. by rewrite rl_visited0.
  - intros y dy Hy Hny. rewrite rl_visited0 in Hny.
    destruct (rl_fin0 y dy Hy) as [H|H]; [|done].
    apply rl_pq_old0.
    assert ((dy, y) ∈ pq st) as Hq.
    { apply (inv_queued _ _ _ I); [done|set_solver]. }
    destruct (Hrest _ Hq) as [[= -> ->]|H']; [set_solver|done].
  - intros dy y Hy.
    destruct (rl_pq_new0 _ Hy) as [H|(z & w & [= -> ->] & Hw & Hz)].
    + destruct (inv_pq _ _ _ I dy y (Hsub _ H)) as (Hwk & d' & Hd' & Hle).
      split; [done|].
      destruct (rl_mono0 y d' Hd') as (d'' & Hd'' & Hle'').
      exists d''. split; [done|lia].
    + split; [by apply walk_snoc with v|].
      by apply rl_edges0.
  - intros y dy Hy.
    destruct (rl_change0 y) as [[H _]|(Hny & w & Hw & Hd & _)].
    + apply (inv_walk _ _ _ I). by rewrite <- H.
    + rewrite Hd in Hy. injection Hy as <-. by apply walk_snoc with v.
  - intros x Hx. rewrite rl_visited0 in Hx. by apply Hfin.
  - intros x y w Hx Hw. rewrite rl_visited0 in Hx.
    apply elem_of_union in Hx as [Hx| ->%elem_of_singleton].
    + destruct (inv_scanned _ _ _ I x y w Hx Hw) as [dy Hdy].
      destruct (rl_mono0 y dy Hdy) as (dy' & H & _). eauto.
    + destruct (decide (y ∈ visited st ∪ {[v]})) as [Hy|Hy].
      * by apply Hfin.
      * destruct (rl_edges0 y w Hw Hy) as (dy & H & _). eauto.
  - rewrite rl_visited0, rl_log0, list_to_set_app_L.
    rewrite <- (inv_log _ _ _ I). set_solver.
  - rewrite rl_log0. apply NoDup_app. split; [apply I|]. split.
    + intros x Hx ->%list_elem_of_singleton. apply Hv.
      rewrite (inv_log _ _ _ I). by apply elem_of_list_to_set.
    + apply NoDup_singleton.
  - intros y p Hy. rewrite rl_visited0.
    destruct (rl_change0 y) as [[_ H]|(Hny & w & Hw & Hd & Hp)].
    + rewrite H in Hy.
      destruct (inv_prev _ _ _ I y p Hy) as (Hne & Hp & dy & Hdy).
      split; [done|]. split; [set_solver|].
      destruct (rl_mono0 y dy Hdy) as (dy' & H' & _). eauto.
    + rewrite Hp in Hy. injection Hy as <-.
      split; [|split; [set_solver|eauto]].
      intros ->. done.
  - rewrite rl_visited0.
    pose proof (unvisited_entries_visit g0 (visited st) v Hv).
    pose proof (inv_count _ _ _ I). lia.
Qed.

Lemma visit_state_measure st d v pq' st' :
  heappop (pq st) = Some ((d, v), pq') ->
  v ∉ visited st ->
  relaxed d v (adj g0 v) (visit_state st v pq') st' ->
  (measure g0 st' < measure g0 st)%nat.
Proof.
  intros (Hin & Hmin & Hlen & Hsub & Hrest)%heappop_Some Hv R.
  destruct R; simpl in *. unfold measure. rewrite rl_visited0.
  pose proof (unvisited_entries_visit g0 (visited st) v Hv). lia.
Qed.

(** One iteration of [while pq] from a state of the invariant: no
    [KeyError], the invariant again, and a smaller measure. *)
Lemma loop_body_inv st d v pq' :
  inv g0 s st ->
  heappop (pq st) = Some ((d, v), pq') ->
  exists st', loop_body st d v pq' = Ok st' /\ inv g0 s st' /\
    (measure g0 st' < measure g0 st)%nat.
Proof.
  intros I Hpop. destruct (decide (v ∈ visited st)) as [Hv|Hv].
  - exists (stale_state st pq'). split; [by apply loop_body_stale|].
    split; [by apply stale_state_inv with d v|].
    apply heappop_Some in Hpop as (_ & _ & Hlen & _).
    unfold measure. simpl. lia.
  - rewrite loop_body_visit by done. rewrite (inv_adj _ _ _ I).
    destruct (for_neighbors_spec d v (adj g0 v) (visit_state st v pq'))
      as (st' & Hrun & R).
    { intros y w Hw. right. simpl. rewrite (inv_dom_d _ _ _ I).
      destruct (g0_wf v y w Hw). set_solver. }
    exists st'. split; [done|]. split.
    + by apply visit_state_inv with st d v pq'.
    + by apply visit_state_measure with d v pq'.
Qed.

(** The loop ends, with any fuel that is at least the measure. *)
Lemma while_pq_terminates fuel st :
  inv g0 s st ->
  (measure g0 st <= fuel)%nat ->
  exists st', while_pq fuel st = Ok st' /\ inv g0 s st' /\ pq st' = [].
Proof.
  revert st. induction fuel as [|fuel IH]; intros st I Hm.
  - unfold measure in Hm. destruct (pq st) as [|x l] eqn:E.
    + exists st. simpl. by rewrite E.
    + simpl in Hm. lia.
  - simpl. destruct (heappop (pq st)) as [[[d v] pq']|] eqn:Hpop.
    + destruct (loop_body_inv st d v pq' I Hpop) as (st1 & -> & I1 & Hlt).
      apply IH; [done|lia].
    + exists st. split; [done|]. split; [done|].
      by apply heappop_None.
Qed.

End MainLoop.

Section Run.

Variables (g0 : Graph) (s : string).
Hypothesis g0_wf : wf g0.

Lemma loop_body_cases st d v pq' st' :
  inv g0 s st ->
  loop_body st d v pq' = Ok st' ->
  (v ∈ visited st /\ st' = stale_state st pq') \/
  ((v ∉ visited st) /\ relaxed d v (adj g0 v) (visit_state st v pq') st').
Proof.
  intros I Hrun. destruct (decide (v ∈ visited st)) as [Hv|Hv].
  - left. rewrite loop_body_stale in Hrun by done. by injection Hrun as <-.
  - right. split; [done|].
    rewrite loop_body_visit, (inv_adj _ _ _ I) in Hrun by done.
    destruct (for_neighbors_spec d v (adj g0 v) (visit_state st v pq'))
      as (st'' & Hrun' & R).
    { intros y w Hw. right. simpl. rewrite (inv_dom_d _ _ _ I).
      destruct (g0_wf v y w Hw). set_solver. }
    rewrite Hrun in Hrun'. by injection Hrun' as <-.
Qed.

(** Induction along the iterations of the loop. *)
Lemma while_pq_invariant (P : state -> Prop) fuel st st' :
  (forall st1 d v pq' st2, inv g0 s st1 -> P st1 ->
     heappop (pq st1) = Some ((d, v), pq') ->
     loop_body st1 d v pq' = Ok st2 -> P st2) ->
  inv g0 s st -> P st ->
  while_pq fuel st = Ok st' -> P st'.
Proof.
  intros Hstep. revert st. induction fuel as [|fuel IH]; intros st I HP.
  - simpl. destruct (heappop (pq st)) as [[[d v] pq']|]; [done|].
    by intros [= <-].
  - simpl. destruct (heappop (pq st)) as [[[d v] pq']|] eqn:Hpop.
    + destruct (loop_body_inv g0 s g0_wf st d v pq' I Hpop)
        as (st1 & Hb & I1 & _).
      rewrite Hb. apply IH; [done|]. by apply (Hstep st d v pq').
    + by intros [= <-].
Qed.

Lemma while_pq_fuel_mono fuel fuel' st st' :
  while_pq fuel st = Ok st' -> (fuel <= fuel')%nat ->
  while_pq fuel' st = Ok st'.
Proof.
  revert fuel' st. induction fuel as [|fuel IH]; intros fuel' st.
  - simpl. destruct (heappop (pq st)) as [[[d v] pq']|] eqn:Hpop; [done|].
    intros [= <-] _. destruct fuel'; simpl; by rewrite Hpop.
  - simpl. destruct (heappop (pq st)) as [[[d v] pq']|] eqn:Hpop.
    + intros Hrun Hle. destruct fuel' as [|fuel']; [lia|]. simpl.
      rewrite Hpop. destruct (loop_body st d v pq'); [|done..].
      apply IH; [done|lia].
    + intros [= <-] _. destruct fuel'; simpl; by rewrite Hpop.
Qed.

(** [dijkstra] returns, and its final state satisfies the invariant with
    an empty queue. *)
Lemma dijkstra_returns :
  exists st, dijkstra g0 s = Ok st /\ inv g0 s st /\ pq st = [].
Proof.
  apply (while_pq_terminates g0 s g0_wf); [by apply dijkstra_init_inv|].
  unfold measure. rewrite adjacency_entries_unvisited. simpl. lia.
Qed.

Lemma dijkstra_fuel_enough fuel st :
  dijkstra g0 s = Ok st -> (S (adjacency_entries g0) <= fuel)%nat ->
  dijkstra_fuel fuel g0 s = Ok st.
Proof.
  intros H Hle.
  by apply while_pq_fuel_mono with (S (adjacency_entries g0)).
Qed.

(** At the end of the loop the visited vertices are the reachable ones. *)
Lemma final_visited st v :
  inv g0 s st -> pq st = [] -> (reachable g0 s v <-> v ∈ visited st).
Proof.
  intros I Hq. split.
  - intros [d Hw]. induction Hw as [|x v d w Hw IH Hv].
    + destruct (inv_start _ _ _ I) as [H|[_ H]]; [done|congruence].
    + destruct (inv_scanned _ _ _ I x v w IH Hv) as [dv Hdv].
      destruct (decide (v ∈ visited st)) as [|Hn]; [done|].
      pose proof (inv_queued _ _ _ I v dv Hdv Hn) as H.
      rewrite Hq in H. by apply elem_of_nil in H.
  - intros Hv. destruct (inv_visited_fin _ _ _ I v Hv) as [d Hd].
    exists d. by apply (inv_walk _ _ _ I).
Qed.

Lemma final_unreachable st v :
  inv g0 s st -> v ∈ vertices g0 -> ~ reachable g0 s v ->
  distances st !! v = Some Inf /\ previous st !! v = Some None.
Proof.
  intros I Hv Hn. split.
  - assert (v ∈ dom (distances st)) as [x Hx]%elem_of_dom.
    { rewrite (inv_dom_d _ _ _ I). set_solver. }
    destruct x as [d|]; [|done]. exfalso. apply Hn. exists d.
    by apply (inv_walk _ _ _ I).
  - assert (v ∈ dom (previous st)) as [x Hx]%elem_of_dom.
    { by rewrite (inv_dom_p _ _ _ I). }
    destruct x as [p|]; [|done]. exfalso. apply Hn.
    destruct (inv_prev _ _ _ I v p Hx) as (_ & _ & d & Hd).
    exists d. by apply (inv_walk _ _ _ I).
Qed.

Lemma final_previous_start st :
  inv g0 s st -> s ∈ vertices g0 -> previous st !! s = Some None.
Proof.
  intros I Hs.
  assert (s ∈ dom (previous st)) as [x Hx]%elem_of_dom.
  { by rewrite (inv_dom_p _ _ _ I). }
  destruct x as [p|]; [|done].
  by destruct (inv_prev _ _ _ I s p Hx) as (? & _).
Qed.

(** *** With non-negative weights *)

Hypothesis g0_nonneg : nonneg_weights g0.

Lemma walk_nonneg u v d : walk g0 u v d -> 0 <= d.
Proof.
  induction 1 as [|x v d w Hw IH Hv]; [lia|].
  pose proof (g0_nonneg x v w Hv). lia.
Qed.

(** A path that ends outside the visited set passes through an unvisited
    vertex whose recorded distance is at most the weight of the path. *)
Lemma crossing st v d :
  inv_nonneg g0 s st -> walk g0 s v d -> v ∉ visited st ->
  exists y dy,
    (y ∉ visited st) /\ distances st !! y = Some (Fin dy) /\ dy <= d.
Proof.
  intros N Hw. induction Hw as [|x v d w Hw IH Hv]; intros Hn.
  - exists s, 0. split; [done|]. split; [apply N|lia].
  - pose proof (g0_nonneg x v w Hv) as H0.
    destruct (decide (x ∈ visited st)) as [Hx|Hx].
    + destruct (nn_final _ _ _ N x d Hx Hw) as (dx & Hdx & Hle).
      destruct (nn_relaxed _ _ _ N x v w dx Hx Hv Hdx) as (dv & Hdv & Hle').
      exists v, dv. split; [done|]. split; [done|lia].
    + destruct (IH Hx) as (y & dy & Hy & Hdy & Hle).
      exists y, dy. split; [done|]. split; [done|lia].
Qed.

Lemma loop_body_inv_nonneg st d v pq' st' :
  inv g0 s st -> inv_nonneg g0 s st ->
  heappop (pq st) = Some ((d, v), pq') ->
  loop_body st d v pq' = Ok st' ->
  inv_nonneg g0 s st'.
Proof.
  intros I N Hpop Hrun.
  destruct (loop_body_cases st d v pq' st' I Hrun) as [[Hv ->]|[Hv R]].
  { destruct N. by split. }
  pose proof Hpop as (Hin & Hmin & Hlen & Hsub & Hrest)%heappop_Some.
  destruct (inv_pq _ _ _ I d v Hin) as (Hwalk & dv & Hdv & Hdv_le).
  assert (dv = d) as ->.
  { pose proof (Hmin _ (inv_queued _ _ _ I v dv Hdv Hv)). simpl in *. lia. }
  assert (Hs : s ∈ visited st ∪ {[v]}).
  { destruct (inv_start _ _ _ I) as [H|[_ H]]; [set_solver|].
    rewrite H in Hin. apply list_elem_of_singleton in Hin as [= -> ->].
    set_solver. }
  assert (Hvv : forall dd, walk g0 s v dd -> d <= dd).
  { intros dd Hdd.
    destruct (crossing st v dd N Hdd Hv) as (y & dy & Hy & Hdy & Hle).
    pose proof (Hmin _ (inv_queued _ _ _ I y dy Hdy Hy)). simpl in *. lia. }
  destruct R; simpl in *.
  assert (Hfinal : forall x dd, x ∈ visited st ∪ {[v]} -> walk g0 s x dd ->
            exists dx, distances st' !! x = Some (Fin dx) /\ dx <= dd).
  { intros x dd Hx Hdd. destruct (rl_frame0 x Hx) as [-> _].
    apply elem_of_union in Hx as [Hx| ->%elem_of_singleton].
    - by apply (nn_final _ _ _ N).
    - exists d. split; [done|]. by apply Hvv. }
  split.
  - destruct (rl_frame0 s Hs) as [-> _]. apply N.
  - intros x dd Hx Hdd. rewrite rl_visited0 in Hx. by apply Hfinal.
  - intros x y w dx Hx Hw Hdx. rewrite rl_visited0 in Hx.
    destruct (rl_frame0 x Hx) as [Hfx _]. rewrite Hfx in Hdx.
    apply elem_of_union in Hx as [Hx| ->%elem_of_singleton].
    + destruct (nn_relaxed _ _ _ N x y w dx Hx Hw Hdx) as (dy & Hdy & Hle).
      destruct (rl_mono0 y dy Hdy) as (dy' & Hdy' & Hle').
      exists dy'. split; [done|lia].
    + rewrite Hdv in Hdx. injection Hdx as <-.
      destruct (decide (y ∈ visited st ∪ {[v]})) as [Hy|Hy].
      * apply Hfinal; [done|]. by apply walk_snoc with v.
      * by apply rl_edges0.
Qed.

(** The final state of [dijkstra] on a graph with non-negative weights. *)
Lemma dijkstra_returns_nonneg :
  exists st, dijkstra g0 s = Ok st /\ inv g0 s st /\ pq st = [] /\
    inv_nonneg g0 s st.
Proof.
  destruct dijkstra_returns as (st & Hrun & I & Hq).
  exists st. split_and!; try done.
  apply (while_pq_invariant (inv_nonneg g0 s) (S (adjacency_entries g0))
           (dijkstra_init g0 s) st
           loop_body_inv_nonneg (dijkstra_init_inv g0 s g0_wf));
    [|exact Hrun].
  split; simpl.
  - by rewrite lookup_insert_eq.
  - set_solver.
  - set_solver.
Qed.

End Run.

(** * The run step by step *)

Section Steps.

Lemma log_no_new (v : string) (l : list string) :
  exists l', l = l ++ l' /\ v ∉ l'.
Proof. exists []. split; [by rewrite app_nil_r|apply not_elem_of_nil]. Qed.

Lemma relax_frame cd cv st e st' :
  relax cd cv st e = Ok st' ->
  visited st' = visited st /\ visit_log st' = visit_log st /\
  forall v, v ∈ visited st -> distances st' !! v = distances st !! v.
Proof.
  intros H.
  pose proof (relax_step cd cv [] e st st st' (relaxed_nil cd cv st) H) as R.
  split; [apply R|]. split; [apply R|].
  intros v Hv. by destruct (rl_frame _ _ _ _ _ R v Hv).
Qed.

Lemma step_log_ok c1 c2 : step c1 c2 -> log_ok c1.2 -> log_ok c2.2.
Proof.
  unfold log_ok. destruct 1 as [st d v pq' _ Hv|st d v pq' _ Hv
    |st cd cv e rest st' Hr|st cd cv]; simpl; try done.
  - intros [Hl Hn]. split.
    + rewrite list_to_set_app_L, <- Hl. set_solver.
    + apply NoDup_app. split; [done|]. split; [|apply NoDup_singleton].
      intros x Hx ->%list_elem_of_singleton. apply Hv. rewrite Hl.
      by apply elem_of_list_to_set.
  - destruct (relax_frame _ _ _ _ _ Hr) as (-> & -> & _). done.
Qed.

Lemma step_kept c1 c2 v :
  step c1 c2 -> v ∈ visited c1.2 -> kept v c1.2 c2.2.
Proof.
  unfold kept.
  destruct 1 as [st d x pq' _ Hx|st d x pq' _ Hx
    |st cd cv e rest st' Hr|st cd cv]; simpl; intros Hv.
  - split_and!; try done. apply log_no_new.
  - split_and!; [done|set_solver|]. exists [x]. split; [done|].
    rewrite list_elem_of_singleton. congruence.
  - destruct (relax_frame _ _ _ _ _ Hr) as (Hvis & Hlog & Hd).
    split_and!; [by apply Hd|by rewrite Hvis|].
    rewrite Hlog. apply log_no_new.
  - split_and!; try done. apply log_no_new.
Qed.

Lemma kept_refl v st : v ∈ visited st -> kept v st st.
Proof.
  intros Hv. split_and!; try done.
  apply log_no_new.
Qed.

Lemma kept_trans v st1 st2 st3 :
  kept v st1 st2 -> kept v st2 st3 -> kept v st1 st3.
Proof.
  intros (H1 & H2 & l & Hl & Hn) (H1' & H2' & l' & Hl' & Hn').
  split_and!; [congruence|done|].
  exists (l ++ l'). rewrite Hl', Hl, app_assoc. split; [done|].
  rewrite elem_of_app. tauto.
Qed.

Lemma steps_kept c1 c2 v :
  rtc step c1 c2 -> v ∈ visited c1.2 -> kept v c1.2 c2.2.
Proof.
  induction 1 as [c|c1 c2 c3 H12 H23 IH]; intros Hv.
  - by apply kept_refl.
  - pose proof (step_kept c1 c2 v H12 Hv) as K.
    apply kept_trans with c2.2; [done|]. apply IH. apply K.
Qed.

Lemma steps_log_ok c1 c2 : rtc step c1 c2 -> log_ok c1.2 -> log_ok c2.2.
Proof.
  induction 1 as [c|c1 c2 c3 H12 H23 IH]; [done|].
  intros H. by apply IH, (step_log_ok c1 c2).
Qed.

(** The functions [for_neighbors] and [while_pq] run these steps. *)
Lemma for_neighbors_steps cd cv l st st' :
  for_neighbors cd cv l st = Ok st' ->
  rtc step (InFor cd cv l, st) (AtWhile, st').
Proof.
  revert st. induction l as [|e l IH]; intros st; simpl.
  - intros [= <-]. apply rtc_once. constructor.
  - destruct (relax cd cv st e) as [st1| |] eqn:E; [|done..].
    intros H. eapply rtc_l; [by apply step_relax|by apply IH].
Qed.

Lemma while_pq_steps fuel st st' :
  while_pq fuel st = Ok st' -> rtc step (AtWhile, st) (AtWhile, st').
Proof.
  revert st. induction fuel as [|fuel IH]; intros st; simpl;
    destruct (heappop (pq st)) as [[[d v] pq']|] eqn:Hpop;
    try done; try (intros [= <-]; apply rtc_refl).
  destruct (loop_body st d v pq') as [st1| |] eqn:Hb; [|done..].
  intros H. apply rtc_trans with (AtWhile, st1); [|by apply IH].
  destruct (decide (v ∈ visited st)) as [Hv|Hv].
  - rewrite loop_body_stale in Hb by done. injection Hb as <-.
    apply rtc_once. by apply step_stale with d v.
  - rewrite loop_body_visit in Hb by done.
    eapply rtc_l; [by apply step_visit|by apply for_neighbors_steps].
Qed.

End Steps.

(** C3. In any run of [dijkstra], from the moment a vertex is in the
    visited set its entry of the distance map keeps its value, it stays
    visited, and no later [visited.add] is for that vertex: the log of
    the additions never holds a vertex twice. *)
Theorem visited_distance_is_final (g : Graph) (s v : string)
    (c1 c2 : pc * state) :
  rtc step (AtWhile, dijkstra_init g s) c1 ->
  rtc step c1 c2 ->
  v ∈ visited c1.2 ->
  distances c2.2 !! v = distances c1.2 !! v /\
  v ∈ visited c2.2 /\
  (exists l, visit_log c2.2 = visit_log c1.2 ++ l /\ v ∉ l) /\
  NoDup (visit_log c2.2).
Proof.
  intros H1 H2 Hv.
  destruct (steps_kept c1 c2 v H2 Hv) as (Hd & Hvis & Hl).
  split_and!; try done.
  apply (steps_log_ok (AtWhile, dijkstra_init g s) c2).
  - by apply rtc_trans with c1.
  - split; simpl; [set_solver|constructor].
Qed.

(** * Two graphs with the same vertices and neighbor lists *)

Section Simulation.

Lemma relax_sim cd cv st1 st2 e :
  sim st1 st2 -> outcome_rel sim (relax cd cv st1 e) (relax cd cv st2 e).
Proof.
  destruct st1, st2. unfold sim; simpl.
  intros (Hg & -> & -> & -> & -> & -> & ->).
  unfold relax; simpl. destruct e as [y w].
  case_decide; simpl; [done|].
  destruct (distances1 !! y) as [dn|]; simpl; [|done].
  destruct (dist_ltb (cd + w) dn); simpl; done.
Qed.

Lemma for_neighbors_sim cd cv l st1 st2 :
  sim st1 st2 ->
  outcome_rel sim (for_neighbors cd cv l st1) (for_neighbors cd cv l st2).
Proof.
  revert st1 st2. induction l as [|e l IH]; intros st1 st2 H; simpl.
  - done.
  - pose proof (relax_sim cd cv st1 st2 e H) as Hr.
    destruct (relax cd cv st1 e), (relax cd cv st2 e); simpl in *;
      try done.
    by apply IH.
Qed.

Lemma loop_body_sim st1 st2 d v pq' :
  sim st1 st2 ->
  outcome_rel sim (loop_body st1 d v pq') (loop_body st2 d v pq').
Proof.
  intros H. pose proof H as ((Hv & Ha) & Hd & Hp & Hq & Hvis & Hl & Hn).
  destruct (decide (v ∈ visited st1)) as [Hin|Hin].
  - rewrite !loop_body_stale by congruence. simpl.
    unfold sim, stale_state; simpl. by split_and!.
  - rewrite !loop_body_visit by congruence. rewrite Ha.
    apply for_neighbors_sim. unfold sim, visit_state; simpl.
    split_and!; try congruence.
    split.
    + by rewrite !get_neighbors_vertices.
    + intros u. by rewrite !get_neighbors_adj.
Qed.

Lemma while_pq_sim fuel st1 st2 :
  sim st1 st2 -> outcome_rel sim (while_pq fuel st1) (while_pq fuel st2).
Proof.
  revert st1 st2. induction fuel as [|fuel IH]; intros st1 st2 H;
    pose proof H as (_ & _ & _ & Hq & _); simpl; rewrite <- Hq;
    destruct (heappop (pq st1)) as [[[d v] pq']|]; simpl; try done.
  pose proof (loop_body_sim st1 st2 d v pq' H) as Hb.
  destruct (loop_body st1 d v pq'), (loop_body st2 d v pq'); simpl in *;
    try done.
  by apply IH.
Qed.

Lemma dijkstra_init_sim g1 g2 s :
  same_view g1 g2 -> sim (dijkstra_init g1 s) (dijkstra_init g2 s).
Proof.
  intros [Hv Ha]. unfold sim, dijkstra_init; simpl. rewrite Hv.
  by split_and!.
Qed.

Lemma same_view_wf g1 g2 : same_view g1 g2 -> wf g1 -> wf g2.
Proof.
  intros [Hv Ha] Hw u v w. rewrite <- Ha, <- Hv. apply Hw.
Qed.

(** A call on a graph and a call on another with the same vertices and
    neighbor lists return the same dictionaries. *)
Lemma dijkstra_same_view g1 g2 s st1 st2 :
  same_view g1 g2 ->
  dijkstra g1 s = Ok st1 -> dijkstra g2 s = Ok st2 ->
  sim st1 st2.
Proof.
  intros Hg H1 H2. unfold dijkstra, dijkstra_fuel in *.
  set (n := (S (adjacency_entries g1) + S (adjacency_entries g2))%nat).
  apply while_pq_fuel_mono with (fuel' := n) in H1; [|lia].
  apply while_pq_fuel_mono with (fuel' := n) in H2; [|lia].
  pose proof (while_pq_sim n _ _ (dijkstra_init_sim g1 g2 s Hg)) as H.
  by rewrite H1, H2 in H.
Qed.

End Simulation.

(** * Counting adjacency entries *)

Section Entries.

Implicit Types (d : gmap string (list (string * Z))).

Lemma entries_of_insert_fresh d k l :
  d !! k = None -> entries_of (<[k := l]> d) = (length l + entries_of d)%nat.
Proof.
  intros H. unfold entries_of. rewrite map_fold_insert_L; [done| |done].
  intros. lia.
Qed.

Lemma entries_of_insert d k l l' :
  d !! k = Some l ->
  (entries_of (<[k := l']> d) + length l = length l' + entries_of d)%nat.
Proof.
  intros H. rewrite (entries_of_delete d k l H).
  rewrite <- (insert_delete_eq d k l').
  rewrite entries_of_insert_fresh by apply lookup_delete_eq. lia.
Qed.

Lemma entries_of_defaultdict_get d k :
  entries_of (defaultdict_get d k).2 = entries_of d.
Proof.
  unfold defaultdict_get. destruct (d !! k) eqn:E; simpl; [done|].
  by rewrite entries_of_insert_fresh.
Qed.

Lemma entries_of_defaultdict_append d k x :
  entries_of (defaultdict_append d k x) = S (entries_of d).
Proof.
  unfold defaultdict_append, defaultdict_get.
  destruct (d !! k) as [l|] eqn:E.
  - pose proof (entries_of_insert d k l (l ++ [x]) E) as H.
    rewrite length_app in H. simpl in H. lia.
  - rewrite insert_insert_eq, entries_of_insert_fresh by done. simpl. lia.
Qed.

Lemma adjacency_entries_apply_op g o :
  adjacency_entries (apply_op g o) =
  (adjacency_entries g + if o is AddEdge _ _ _ then 2 else 0)%nat.
Proof.
  unfold adjacency_entries. fold (entries_of (edges (apply_op g o))).
  fold (entries_of (edges g)). destruct o as [v|a b w|v]; simpl.
  - lia.
  - rewrite !entries_of_defaultdict_append. lia.
  - unfold get_neighbors.
    pose proof (entries_of_defaultdict_get (edges g) v) as H.
    destruct (defaultdict_get (edges g) v); simpl in *. lia.
Qed.

Lemma edge_calls_app ops1 ops2 :
  edge_calls (ops1 ++ ops2) = (edge_calls ops1 + edge_calls ops2)%nat.
Proof.
  induction ops1 as [|o ops1 IH]; simpl; [done|].
  destruct o; simpl; lia.
Qed.

Lemma adjacency_entries_build ops :
  adjacency_entries (build ops) = (2 * edge_calls ops)%nat.
Proof.
  induction ops as [|o ops IH] using rev_ind; [done|].
  rewrite build_snoc, adjacency_entries_apply_op, IH, edge_calls_app.
  destruct o; simpl; lia.
Qed.

End Entries.

(** * The shortest-path engine *)

Section Engine.

Lemma build_nonneg ops : Forall op_nonneg ops -> nonneg_weights (build ops).
Proof.
  induction ops as [|o ops IH] using rev_ind; intros H.
  - intros u v w. by rewrite adj_Graph_init, elem_of_nil.
  - apply Forall_app in H as [H1 H2]. apply Forall_cons in H2 as [H2 _].
    rewrite build_snoc. intros u v w. destruct o as [x|a b z|x]; simpl.
    + by apply IH.
    + rewrite elem_of_adj_add_edge. simpl in H2.
      intros [H|[(_ & _ & ->)|(_ & _ & ->)]]; [by apply (IH H1 u v)|done..].
    + rewrite get_neighbors_adj. by apply IH.
Qed.

Lemma build_sample : build sample_ops = create_sample_graph.
Proof. reflexivity. Qed.

Lemma walk_start_isolated g s v d :
  adj g s = [] -> walk g s v d -> v = s /\ d = 0.
Proof.
  intros Hs. induction 1 as [|x v d w Hw IH Hv]; [done|].
  destruct IH as [-> ->]. rewrite Hs in Hv. by apply elem_of_nil in Hv.
Qed.

Lemma walk_last g s v d :
  walk g s v d -> v = s \/ exists x w, (v, w) ∈ adj g x.
Proof. destruct 1; eauto. Qed.

Lemma walk_back_None fuel prev path :
  walk_back fuel prev None path = Ok path.
Proof. by destruct fuel. Qed.

Lemma reconstruct_path_none prev s v fuel :
  prev !! v = Some None -> v <> s -> (1 <= fuel)%nat ->
  reconstruct_path_fuel fuel prev s v = Ok None.
Proof.
  intros Hp Hne Hf. destruct fuel as [|fuel]; [lia|].
  unfold reconstruct_path_fuel. simpl. rewrite Hp, walk_back_None. simpl.
  by rewrite decide_True.
Qed.

Lemma reconstruct_path_self prev s fuel :
  prev !! s = Some None -> (1 <= fuel)%nat ->
  reconstruct_path_fuel fuel prev s s = Ok (Some [s]).
Proof.
  intros Hp Hf. destruct fuel as [|fuel]; [lia|].
  unfold reconstruct_path_fuel. simpl. rewrite Hp, walk_back_None. simpl.
  rewrite decide_False; [done|]. by intros H.
Qed.

End Engine.

(** C1. On a graph with non-negative weights and a source in the vertex
    set, [dijkstra] returns a distance map where the source has 0, every
    vertex reachable from the source has the least weight of a path from
    the source, and every other vertex has infinity. *)
Theorem dijkstra_distances_shortest (ops : list op) (s : string) :
  nonneg_weights (build ops) ->
  s ∈ vertices (build ops) ->
  exists st, dijkstra (build ops) s = Ok st /\
    distances st !! s = Some (Fin 0) /\
    forall v, v ∈ vertices (build ops) ->
      (reachable (build ops) s v ->
       exists d, distances st !! v = Some (Fin d) /\
                 shortest (build ops) s v d) /\
      (~ reachable (build ops) s v -> distances st !! v = Some Inf).
Proof.
  intros Hnn Hs.
  destruct (dijkstra_returns_nonneg (build ops) s (build_wf ops) Hnn)
    as (st & Hrun & I & Hq & N).
  exists st. split; [done|]. split; [apply N|].
  intros v Hv. split.
  - intros Hr.
    apply (final_visited (build ops) s st v I Hq) in Hr.
    destruct (inv_visited_fin _ _ _ I v Hr) as [d Hd].
    exists d. split; [done|]. split; [by apply (inv_walk _ _ _ I)|].
    intros d' Hd'. destruct (nn_final _ _ _ N v d' Hr Hd') as (dx & Hdx & Hle).
    congruence.
  - intros Hn.
    by apply (final_unreachable (build ops) s (build_wf ops) st v I Hv Hn).
Qed.

Lemma dijkstra_distances_shortest_witness :
  exists st, dijkstra (build sample_ops) "A" = Ok st /\
    distances st !! "A" = Some (Fin 0) /\
    forall v, v ∈ vertices (build sample_ops) ->
      (reachable (build sample_ops) "A" v ->
       exists d, distances st !! v = Some (Fin d) /\
                 shortest (build sample_ops) "A" v d) /\
      (~ reachable (build sample_ops) "A" v ->
       distances st !! v = Some Inf).
Proof.
  apply (dijkstra_distances_shortest sample_ops "A").
  - apply build_nonneg. repeat constructor; simpl; lia.
  - vm_compute. reflexivity.
Defined.

(** C5. A vertex of the graph that the source does not reach ends the
    run with distance infinity and predecessor [None], and
    [reconstruct_path] to it returns [None], the no-path result, without
    raising, with any fuel that allows one iteration. *)
Theorem unreachable_vertex_no_path (ops : list op) (s v : string) :
  s ∈ vertices (build ops) ->
  v ∈ vertices (build ops) ->
  ~ reachable (build ops) s v ->
  exists st, dijkstra (build ops) s = Ok st /\
    distances st !! v = Some Inf /\
    previous st !! v = Some None /\
    reconstruct_path (previous st) s v = Ok None /\
    forall fuel, (1 <= fuel)%nat ->
      reconstruct_path_fuel fuel (previous st) s v = Ok None.
Proof.
  intros Hs Hv Hn.
  destruct (dijkstra_returns (build ops) s (build_wf ops))
    as (st & Hrun & I & Hq).
  destruct (final_unreachable (build ops) s (build_wf ops) st v I Hv Hn)
    as [Hd Hp].
  assert (v <> s) as Hne.
  { intros ->. apply Hn. exists 0. constructor. }
  exists st. split_and!; try done.
  - apply reconstruct_path_none; [done|done|lia].
  - intros fuel Hf. by apply reconstruct_path_none.
Qed.

Lemma island_unreachable : ~ reachable (build island_ops) "A" "C".
Proof.
  intros [d Hw].
  assert (forall v d, walk (build island_ops) "A" v d ->
            v = "A"%string \/ v = "B"%string) as H.
  { clear. induction 1 as [|x v d w Hw IH Hv]; [by left|].
    destruct IH as [-> | ->]; vm_compute in Hv;
      apply list_elem_of_singleton in Hv as [= -> _]; auto. }
  by destruct (H _ _ Hw).
Qed.

Lemma unreachable_vertex_no_path_witness :
  exists st, dijkstra (build island_ops) "A" = Ok st /\
    distances st !! "C" = Some Inf /\
    previous st !! "C" = Some None /\
    reconstruct_path (previous st) "A" "C" = Ok None /\
    forall fuel, (1 <= fuel)%nat ->
      reconstruct_path_fuel fuel (previous st) "A" "C" = Ok None.
Proof.
  apply (unreachable_vertex_no_path island_ops "A" "C").
  - vm_compute. reflexivity.
  - vm_compute. reflexivity.
  - apply island_unreachable.
Defined.

(** C6. With the source in the vertex set, [reconstruct_path] from the
    source to itself over the predecessor map of [dijkstra] returns the
    one-element path [[source]]. *)
Theorem reconstruct_path_source (ops : list op) (s : string) :
  s ∈ vertices (build ops) ->
  exists st, dijkstra (build ops) s = Ok st /\
    reconstruct_path (previous st) s s = Ok (Some [s]) /\
    forall fuel, (1 <= fuel)%nat ->
      reconstruct_path_fuel fuel (previous st) s s = Ok (Some [s]).
Proof.
  intros Hs.
  destruct (dijkstra_returns (build ops) s (build_wf ops))
    as (st & Hrun & I & Hq).
  pose proof (final_previous_start (build ops) s st I Hs) as Hp.
  exists st. split_and!; try done.
  - apply reconstruct_path_self; [done|lia].
  - intros fuel Hf. by apply reconstruct_path_self.
Qed.

Lemma reconstruct_path_source_witness :
  exists st, dijkstra (build sample_ops) "A" = Ok st /\
    reconstruct_path (previous st) "A" "A" = Ok (Some ["A"%string]) /\
    forall fuel, (1 <= fuel)%nat ->
      reconstruct_path_fuel fuel (previous st) "A" "A"
      = Ok (Some ["A"%string]).
Proof.
  apply (reconstruct_path_source sample_ops "A").
  vm_compute. reflexivity.
Defined.

(** C7. The loop of [dijkstra] ends: the call returns with an empty queue
    within the fuel of one iteration per adjacency entry plus one, and
    more fuel changes nothing; it calls [heappush] at most once per
    adjacency entry, that is at most twice per [add_edge] call; and the
    vertices it marks visited are the vertices reachable from the source,
    each marked once. *)
Theorem dijkstra_terminates (ops : list op) (s : string) :
  s ∈ vertices (build ops) ->
  exists st, dijkstra (build ops) s = Ok st /\
    (forall fuel, (S (adjacency_entries (build ops)) <= fuel)%nat ->
       dijkstra_fuel fuel (build ops) s = Ok st) /\
    pq st = [] /\
    (pushes st <= adjacency_entries (build ops))%nat /\
    (pushes st <= 2 * edge_calls ops)%nat /\
    NoDup (visit_log st) /\
    forall v, reachable (build ops) s v <-> v ∈ visit_log st.
Proof.
  intros _.
  destruct (dijkstra_returns (build ops) s (build_wf ops))
    as (st & Hrun & I & Hq).
  pose proof (inv_count _ _ _ I) as Hc.
  exists st. split_and!; try done.
  - intros fuel Hf. by apply dijkstra_fuel_enough.
  - lia.
  - rewrite <- adjacency_entries_build. lia.
  - apply I.
  - intros v. rewrite (final_visited (build ops) s st v I Hq).
    rewrite (inv_log _ _ _ I). by rewrite elem_of_list_to_set.
Qed.

Lemma dijkstra_terminates_witness :
  exists st, dijkstra (build sample_ops) "A" = Ok st /\
    (forall fuel, (S (adjacency_entries (build sample_ops)) <= fuel)%nat ->
       dijkstra_fuel fuel (build sample_ops) "A" = Ok st) /\
    pq st = [] /\
    (pushes st <= adjacency_entries (build sample_ops))%nat /\
    (pushes st <= 2 * edge_calls sample_ops)%nat /\
    NoDup (visit_log st) /\
    forall v, reachable (build sample_ops) "A" v <-> v ∈ visit_log st.
Proof.
  apply (dijkstra_terminates sample_ops "A").
  vm_compute. reflexivity.
Defined.

Section Frame.

(** On a symmetric graph a vertex reached by an edge has a key in the
    adjacency mapping. *)
Lemma reached_has_key g s k d :
  symmetric g -> walk g s k d -> k <> s -> is_Some (edges g !! k).
Proof.
  intros Hsym Hw Hne.
  destruct (walk_last g s k d Hw) as [->|(x & w & Hx)]; [done|].
  apply Hsym in Hx. unfold adj in Hx.
  destruct (edges g !! k); [done|]. by apply elem_of_nil in Hx.
Qed.

Lemma final_edges g s st :
  symmetric g -> inv g s st -> pq st = [] ->
  edges (graph st) = edges g \/
  (edges g !! s = None /\ edges (graph st) = <[s := []]> (edges g)).
Proof.
  intros Hsym I Hq.
  assert (forall k, k <> s -> edges (graph st) !! k = edges g !! k) as Hk.
  { intros k Hne. destruct (inv_edges _ _ _ I k) as [H|(H1 & H2 & H3)];
      [done|].
    apply (final_visited g s st k I Hq) in H3 as [d Hw].
    destruct (reached_has_key g s k d Hsym Hw Hne) as [l Hl]. congruence. }
  assert (s ∈ visited st) as Hs.
  { apply (final_visited g s st s I Hq). exists 0. constructor. }
  destruct (inv_edges _ _ _ I s) as [H|(H1 & H2 & H3)].
  - left. apply map_eq. intros k.
    destruct (decide (k = s)) as [->|Hne]; [done|by apply Hk].
  - right. split; [done|]. apply map_eq. intros k.
    destruct (decide (k = s)) as [->|Hne].
    + by rewrite lookup_insert_eq.
    + rewrite lookup_insert_ne by done. by apply Hk.
Qed.

End Frame.

(** C8. Two calls of [dijkstra] in a row on the same graph object and
    source, the second on the graph as the first call leaves it, return
    the same distance map and the same predecessor map. *)
Theorem dijkstra_deterministic (ops : list op) (s : string) :
  exists st1 st2,
    dijkstra (build ops) s = Ok st1 /\
    dijkstra (graph st1) s = Ok st2 /\
    distances st2 = distances st1 /\
    previous st2 = previous st1.
Proof.
  destruct (dijkstra_returns (build ops) s (build_wf ops))
    as (st1 & Hrun1 & I1 & _).
  assert (same_view (build ops) (graph st1)) as Hview.
  { split; [symmetry; apply I1|]. intros u. symmetry. apply I1. }
  destruct (dijkstra_returns (graph st1) s
              (same_view_wf _ _ Hview (build_wf ops)))
    as (st2 & Hrun2 & _).
  exists st1, st2. split; [done|]. split; [done|].
  destruct (dijkstra_same_view _ _ s st1 st2 Hview Hrun1 Hrun2)
    as (_ & Hd & Hp & _).
  by split.
Qed.

(** C9, as the code has it. A call of [dijkstra] leaves the vertex set
    and the neighbor list of every vertex as they were.  The adjacency
    mapping changes in exactly one case: a source without a key in it
    gets the key, with the empty list, and nothing else changes; with a
    source that has a key the mapping, and so the whole graph, is as it
    was. *)
Theorem dijkstra_graph_frame (ops : list op) (s : string) :
  exists st, dijkstra (build ops) s = Ok st /\
    vertices (graph st) = vertices (build ops) /\
    (forall u, (get_neighbors (graph st) u).1
               = (get_neighbors (build ops) u).1) /\
    (edges (build ops) !! s = None ->
     edges (graph st) = <[s := []]> (edges (build ops))) /\
    (is_Some (edges (build ops) !! s) ->
     edges (graph st) = edges (build ops) /\ graph st = build ops).
Proof.
  destruct (dijkstra_returns (build ops) s (build_wf ops))
    as (st & Hrun & I & Hq).
  pose proof (final_edges _ _ st (build_symmetric ops) I Hq) as He.
  assert (is_Some (edges (graph st) !! s)) as Hkey.
  { apply (inv_touched _ _ _ I).
    apply (final_visited _ s st s I Hq). exists 0. constructor. }
  exists st. split_and!; try done.
  - apply I.
  - intros u. rewrite !get_neighbors_fst. apply I.
  - intros Hnone. destruct He as [He|[_ He]]; [|done].
    rewrite He, Hnone in Hkey. by destruct Hkey.
  - intros [l Hl]. destruct He as [He|[Hnone _]]; [|congruence].
    split; [done|].
    pose proof (inv_vertices _ _ _ I) as Hv.
    destruct (graph st) as [V E], (build ops) as [V' E']; simpl in *.
    by subst.
Qed.

(** C9 as stated fails: on the graph of the single vertex A the call
    from A adds the key A to the adjacency mapping. *)
Lemma dijkstra_changes_key_set :
  exists st, dijkstra (build [AddVertex "A"]) "A" = Ok st /\
    dom (edges (build [AddVertex "A"])) = ∅ /\
    dom (edges (graph st)) = {["A"%string]} /\
    graph st <> build [AddVertex "A"].
Proof.
  destruct (dijkstra_returns (build [AddVertex "A"]) "A" (build_wf _))
    as (st & Hrun & I & Hq).
  exists st. split; [done|].
  assert (edges (build [AddVertex "A"]) = ∅) as Hempty by reflexivity.
  destruct (final_edges _ _ st (build_symmetric _) I Hq) as [He|[_ He]].
  - exfalso.
    assert ("A"%string ∈ visited st) as Hv.
    { apply (final_visited _ _ st "A" I Hq). exists 0. constructor. }
    destruct (inv_touched _ _ _ I _ Hv) as [l Hl].
    rewrite He, Hempty in Hl. done.
  - rewrite He, Hempty. split_and!.
    + apply dom_empty_L.
    + by rewrite insert_empty, dom_singleton_L.
    + intros Hg. rewrite Hg, Hempty in He.
      apply (f_equal (fun m => m !! "A"%string)) in He.
      by rewrite lookup_insert_eq in He.
Qed.

(** C10. With a source that is not in the vertex set [dijkstra] returns
    without raising: every vertex of the graph has distance infinity and
    predecessor [None], the source has the extra entry 0 in the distance
    map and no entry in the predecessor map. *)
Theorem dijkstra_absent_source (ops : list op) (s : string) :
  s ∉ vertices (build ops) ->
  exists st, dijkstra (build ops) s = Ok st /\
    (forall v, v ∈ vertices (build ops) -> distances st !! v = Some Inf) /\
    distances st !! s = Some (Fin 0) /\
    dom (distances st) = vertices (build ops) ∪ {[s]} /\
    (forall v, v ∈ vertices (build ops) -> previous st !! v = Some None) /\
    previous st !! s = None /\
    dom (previous st) = vertices (build ops).
Proof.
  intros Hs.
  destruct (dijkstra_returns (build ops) s (build_wf ops))
    as (st & Hrun & I & Hq).
  assert (adj (build ops) s = []) as Hadj.
  { destruct (adj (build ops) s) as [|[y w] l] eqn:E; [done|].
    destruct (build_wf ops s y w); [|done].
    rewrite E. apply list_elem_of_here. }
  assert (forall v, v ∈ vertices (build ops) ->
            ~ reachable (build ops) s v) as Hn.
  { intros v Hv [d Hw].
    destruct (walk_start_isolated _ _ _ _ Hadj Hw) as [-> _]. done. }
  exists st. split_and!; try done.
  - intros v Hv.
    by destruct (final_unreachable _ s (build_wf ops) st v I Hv (Hn v Hv)).
  - assert (s ∈ visited st) as Hv.
    { apply (final_visited _ s st s I Hq). exists 0. constructor. }
    destruct (inv_visited_fin _ _ _ I s Hv) as [d Hd].
    destruct (walk_start_isolated _ _ _ _ Hadj (inv_walk _ _ _ I s d Hd))
      as [_ ->].
    done.
  - apply I.
  - intros v Hv.
    by destruct (final_unreachable _ s (build_wf ops) st v I Hv (Hn v Hv)).
  - apply not_elem_of_dom. by rewrite (inv_dom_p _ _ _ I).
  - apply I.
Qed.

Lemma dijkstra_absent_source_witness :
  exists st, dijkstra (build sample_ops) "Z" = Ok st /\
    (forall v, v ∈ vertices (build sample_ops) ->
       distances st !! v = Some Inf) /\
    distances st !! "Z" = Some (Fin 0) /\
    dom (distances st) = vertices (build sample_ops) ∪ {["Z"%string]} /\
    (forall v, v ∈ vertices (build sample_ops) ->
       previous st !! v = Some None) /\
    previous st !! "Z" = None /\
    dom (previous st) = vertices (build sample_ops).
Proof.
  apply (dijkstra_absent_source sample_ops "Z").
  vm_compute. intros H. discriminate H.
Defined.

(** * The sample graph *)

Lemma sample_run :
  match dijkstra create_sample_graph "A" with
  | Ok st => sample_result st
  | _ => False
  end.
Proof. vm_compute. by repeat split. Qed.

(** C2, as the code has it. On the sample graph from A the distances are
    A=0, B=3, C=2, D=8, E=10, F=13, and the path to F is
    A, C, B, D, E, F, of total weight 13. *)
Theorem sample_graph_distances :
  exists st, dijkstra create_sample_graph "A" = Ok st /\
    sample_result st /\
    path_weight create_sample_graph ["A"; "C"; "B"; "D"; "E"; "F"]%string
    = Some 13.
Proof.
  pose proof sample_run as H.
  destruct (dijkstra create_sample_graph "A") as [st| |]; [|done..].
  exists st. split; [done|]. split; [done|]. reflexivity.
Qed.

(** C2 as stated fails: the run does not give D=7, E=9, F=12 nor the path
    A, C, B, D, F, and that path weighs 14. *)
Lemma sample_graph_expected_fails :
  ~ (exists st, dijkstra create_sample_graph "A" = Ok st /\
       sample_expected st).
Proof.
  intros (st & Hrun & _ & _ & _ & HD & _).
  pose proof sample_run as H. rewrite Hrun in H.
  destruct H as (_ & _ & _ & HD' & _). congruence.
Qed.

Lemma visited_distance_is_final_witness :
  distances sample_c2.2 !! "A"%string = distances sample_c1.2 !! "A"%string /\
  "A"%string ∈ visited sample_c2.2 /\
  (exists l, visit_log sample_c2.2 = visit_log sample_c1.2 ++ l /\
             "A"%string ∉ l) /\
  NoDup (visit_log sample_c2.2).
Proof.
  apply (visited_distance_is_final create_sample_graph "A" "A"
           sample_c1 sample_c2).
  - apply rtc_once. unfold sample_c1.
    apply (step_visit (dijkstra_init create_sample_graph "A") 0 "A" []).
    + vm_compute. reflexivity.
    + apply not_elem_of_empty.
  - apply rtc_trans with
      (AtWhile,
       match for_neighbors 0 "A" (adj create_sample_graph "A") sample_c1.2
       with Ok st => st | _ => sample_c1.2 end).
    + apply for_neighbors_steps. vm_compute. reflexivity.
    + apply (while_pq_steps 20). vm_compute. reflexivity.
  - vm_compute. reflexivity.
Defined.

(** * Further properties of the graph and of the engine *)

Section WalkBack.

Implicit Types (prev : gmap string (option string)) (l acc : list string).

(** What [walk_back] returns when it returns: the vertices from [c] back
    to one without predecessor, appended to the accumulator. *)
Lemma walk_back_Ok fuel prev c acc r :
  walk_back fuel prev (Some c) acc = Ok r ->
  exists l root, r = acc ++ l /\ head l = Some c /\ last l = Some root /\
    back_links prev l /\ prev !! root = Some None /\
    (length l <= fuel)%nat.
Proof.
  revert c acc. induction fuel as [|fuel IH]; intros c acc; simpl; [done|].
  destruct (prev !! c) as [[p|]|] eqn:Hc; [| |done].
  - intros H. apply IH in H as (l & root & -> & Hh & Hl & Hb & Hr & Hlen).
    exists (c :: l), root. rewrite <- app_assoc. simpl.
    split; [done|]. split; [done|].
    destruct l as [|y l]; [done|]. simpl in Hh. injection Hh as ->.
    split; [done|]. split; [by split|]. split; [done|]. simpl in *. lia.
  - rewrite walk_back_None. intros [= <-].
    exists [c], c. simpl. split_and!; try done. lia.
Qed.

(** A chain of predecessors that ends at a vertex without predecessor is
    what [walk_back] returns, with fuel for every vertex of it. *)
Lemma walk_back_chain fuel prev l c root acc :
  head l = Some c -> last l = Some root -> back_links prev l ->
  prev !! root = Some None -> (length l <= fuel)%nat ->
  walk_back fuel prev (Some c) acc = Ok (acc ++ l).
Proof.
  revert fuel c acc. induction l as [|x l IH]; intros fuel c acc; [done|].
  simpl. intros [= ->] Hl Hb Hr Hlen.
  destruct fuel as [|fuel]; [simpl in Hlen; lia|]. simpl.
  destruct l as [|y l].
  - simpl in Hl. injection Hl as ->. rewrite Hr. by rewrite walk_back_None.
  - destruct Hb as [Hc Hb]. rewrite Hc.
    rewrite (IH fuel y (acc ++ [c])); try done.
    + by rewrite <- app_assoc.
    + simpl in *. lia.
Qed.

(** A chain of predecessors that ends at a vertex that is no key. *)
Lemma walk_back_missing fuel prev l c k acc :
  head l = Some c -> last l = Some k -> back_links prev l ->
  prev !! k = None -> (length l <= fuel)%nat ->
  walk_back fuel prev (Some c) acc = Raise (KeyError k).
Proof.
  revert fuel c acc. induction l as [|x l IH]; intros fuel c acc; [done|].
  simpl. intros [= ->] Hl Hb Hr Hlen.
  destruct fuel as [|fuel]; [simpl in Hlen; lia|]. simpl.
  destruct l as [|y l].
  - simpl in Hl. injection Hl as ->. by rewrite Hr.
  - destruct Hb as [Hc Hb]. rewrite Hc.
    apply (IH fuel y (acc ++ [c])); try done. simpl in *. lia.
Qed.

(** Inside a set of vertices closed under predecessors the walk never
    ends. *)
Lemma walk_back_cycle fuel prev (C : gset string) c acc :
  (forall x, x ∈ C -> exists p, prev !! x = Some (Some p) /\ p ∈ C) ->
  c ∈ C ->
  walk_back fuel prev (Some c) acc = OutOfFuel.
Proof.
  intros HC. revert c acc. induction fuel as [|fuel IH]; intros c acc Hc;
    simpl; [done|].
  destruct (HC c Hc) as (p & -> & Hp). by apply IH.
Qed.

End WalkBack.

Lemma rev_last_head (l : list string) x :
  last l = Some x -> exists l', l = l' ++ [x] /\ rev l = x :: rev l'.
Proof.
  intros [l' ->]%last_Some. exists l'. split; [done|].
  by rewrite rev_app_distr.
Qed.

Lemma last_rev_head (l : list string) e :
  head l = Some e -> last (rev l) = Some e.
Proof.
  destruct l as [|x l]; [done|]. simpl. intros [= ->]. apply last_snoc.
Qed.

(** X1. For any predecessor map, when [reconstruct_path] returns, the walk
    back from the target has followed predecessor links up to a vertex
    whose predecessor is [None]; the result is the reversed walk when that
    vertex is the start, and [None] otherwise.  A returned path begins at
    the start and ends at the target. *)
Theorem reconstruct_path_sound (fuel : nat)
    (prev : gmap string (option string)) (s e : string)
    (r : option (list string)) :
  reconstruct_path_fuel fuel prev s e = Ok r ->
  exists l root,
    head l = Some e /\ last l = Some root /\ back_links prev l /\
    prev !! root = Some None /\
    r = (if decide (root = s) then Some (rev l) else None) /\
    (forall path, r = Some path -> head path = Some s /\ last path = Some e).
Proof.
  unfold reconstruct_path_fuel.
  destruct (walk_back fuel prev (Some e) []) as [l| |] eqn:Hw; [|done..].
  apply walk_back_Ok in Hw as (l0 & root & -> & Hh & Hl & Hb & Hr & _).
  simpl. destruct (rev_last_head l0 root Hl) as (l' & Hl0 & ->).
  intros Hres. exists l0, root.
  destruct (decide (root = s)) as [->|Hne].
  - rewrite decide_False in Hres by (by intros H; apply H).
    injection Hres as <-. split_and!; try done.
    + by rewrite Hl0, rev_app_distr.
    + intros path [= <-]. split; [done|].
      rewrite Hl0 in Hh. destruct l' as [|x l'].
      * simpl in *. by injection Hh as ->.
      * injection Hh as ->. rewrite last_cons.
        by rewrite (last_rev_head (e :: l') e).
  - rewrite decide_True in Hres by done. injection Hres as <-.
    by split_and!.
Qed.

Lemma reconstruct_path_sound_witness :
  exists l root,
    head l = Some "B"%string /\ last l = Some root /\
    back_links {["B"%string := Some "A"%string; "A"%string := None]} l /\
    ({["B"%string := Some "A"%string; "A"%string := None]}
       : gmap string (option string)) !! root = Some None /\
    Some ["A"; "B"]%string = (if decide (root = "A"%string)
                              then Some (rev l) else None) /\
    (forall path, Some ["A"; "B"]%string = Some path ->
       head path = Some "A"%string /\ last path = Some "B"%string).
Proof.
  apply (reconstruct_path_sound 5
           {["B"%string := Some "A"%string; "A"%string := None]}
           "A" "B" (Some ["A"; "B"]%string)).
  vm_compute. reflexivity.
Defined.

(** X2. When the predecessor links from the target lead to a vertex that is
    no key of the map, [reconstruct_path] raises [KeyError] for that
    vertex, given fuel for every link. *)
Theorem reconstruct_path_missing_key (fuel : nat)
    (prev : gmap string (option string)) (s e k : string)
    (l : list string) :
  head l = Some e -> last l = Some k -> back_links prev l ->
  prev !! k = None -> (length l <= fuel)%nat ->
  reconstruct_path_fuel fuel prev s e = Raise (KeyError k).
Proof.
  intros Hh Hl Hb Hk Hf. unfold reconstruct_path_fuel.
  by rewrite (walk_back_missing fuel prev l e k []).
Qed.

Lemma reconstruct_path_missing_key_witness :
  reconstruct_path_fuel 2 {["B"%string := Some "A"%string]} "A" "B"
  = Raise (KeyError "A").
Proof.
  apply (reconstruct_path_missing_key 2 {["B"%string := Some "A"%string]}
           "A" "B" "A" ["B"; "A"]%string).
  - reflexivity.
  - reflexivity.
  - split; [|exact I]. vm_compute. reflexivity.
  - vm_compute. reflexivity.
  - simpl. lia.
Defined.

(** X3. When the target lies in a set of vertices that all have a
    predecessor inside the set, the loop of [reconstruct_path] never ends:
    no amount of fuel gives a result. *)
Theorem reconstruct_path_cycle (fuel : nat)
    (prev : gmap string (option string)) (C : gset string) (s e : string) :
  (forall x, x ∈ C -> exists p, prev !! x = Some (Some p) /\ p ∈ C) ->
  e ∈ C ->
  reconstruct_path_fuel fuel prev s e = OutOfFuel.
Proof.
  intros HC He. unfold reconstruct_path_fuel.
  by rewrite (walk_back_cycle fuel prev C e []).
Qed.

Lemma reconstruct_path_cycle_witness :
  reconstruct_path_fuel 1000
    {["A"%string := Some "B"%string; "B"%string := Some "A"%string]} "A" "B"
  = OutOfFuel.
Proof.
  apply (reconstruct_path_cycle 1000
           {["A"%string := Some "B"%string; "B"%string := Some "A"%string]}
           {["A"%string; "B"%string]} "A" "B").
  - intros x [->%elem_of_singleton| ->%elem_of_singleton]%elem_of_union.
    + exists "B"%string. split; [vm_compute; reflexivity|set_solver].
    + exists "A"%string. split; [vm_compute; reflexivity|set_solver].
  - set_solver.
Defined.

Section Tree.

Variables (g0 : Graph) (s : string).
Hypothesis g0_wf : wf g0.

Lemma path_walk_walk l d :
  path_walk g0 l d ->
  exists u v, head l = Some u /\ last l = Some v /\ walk g0 u v d.
Proof.
  induction 1 as [u|l x v d w Hp IH Hv].
  - exists u, u. split_and!; try done. constructor.
  - destruct IH as (u & x' & Hh & Hl & Hw).
    rewrite last_snoc in Hl. injection Hl as <-.
    exists u, v. split_and!.
    + destruct l; simpl in *; done.
    + replace (l ++ [x; v]) with ((l ++ [x]) ++ [v])
        by (by rewrite <- app_assoc).
      by rewrite last_snoc.
    + by apply walk_snoc with x.
Qed.

Lemma dijkstra_init_inv_tree : inv_tree g0 s (dijkstra_init g0 s).
Proof.
  split; simpl.
  - by rewrite lookup_insert_eq.
  - by intros v p [_ ?]%lookup_gset_to_gmap_Some.
  - intros v d Hd Hne. rewrite lookup_insert_ne in Hd by done.
    by apply lookup_gset_to_gmap_Some in Hd as [_ ?].
  - intros v p _ Hv. by apply not_elem_of_empty in Hv.
Qed.

Lemma before_app_r l l' p v : before l p v -> before (l ++ l') p v.
Proof.
  intros (l1 & l2 & l3 & ->). exists l1, l2, (l3 ++ l').
  rewrite <- app_assoc. simpl. by rewrite <- app_assoc.
Qed.

Lemma loop_body_inv_tree st d v pq' st' :
  inv g0 s st -> inv_tree g0 s st ->
  heappop (pq st) = Some ((d, v), pq') ->
  loop_body st d v pq' = Ok st' ->
  inv_tree g0 s st'.
Proof.
  intros I T Hpop Hrun.
  destruct (loop_body_cases g0 s g0_wf st d v pq' st' I Hrun)
    as [[Hv ->]|[Hv R]].
  { destruct T. by split. }
  pose proof Hpop as (Hin & Hmin & Hlen & Hsub & Hrest)%heappop_Some.
  destruct (inv_pq _ _ _ I d v Hin) as (Hwalk & dv & Hdv & Hdv_le).
  assert (dv = d) as ->.
  { pose proof (Hmin _ (inv_queued _ _ _ I v dv Hdv Hv)). simpl in *. lia. }
  assert (Hs : s ∈ visited st ∪ {[v]}).
  { destruct (inv_start _ _ _ I) as [H|[_ H]]; [set_solver|].
    rewrite H in Hin. apply list_elem_of_singleton in Hin as [= -> ->].
    set_solver. }
  destruct R as [Rg Rvis Rlog Rdd Rfr Rch Rmo Red Rpo Rpn Rfi Rpu Rpb];
    simpl in *.
  split.
  - destruct (Rfr s Hs) as [-> _]. apply T.
  - intros y p Hy.
    destruct (Rch y) as [[Hd Hp]|(Hny & w & Hw & Hd & Hp)].
    + rewrite Hp in Hy.
      destruct (tr_edge _ _ _ T y p Hy) as (dp & w & Hdp & Hw & Hdy).
      exists dp, w. rewrite Hd. split_and!; try done.
      destruct (inv_prev _ _ _ I y p Hy) as (_ & Hpv & _).
      destruct (Rfr p) as [-> _]; [set_solver|done].
    + rewrite Hp in Hy. injection Hy as <-. exists d, w.
      split_and!; try done.
      destruct (Rfr v) as [-> _]; [set_solver|done].
  - intros y dy Hy Hne.
    destruct (Rch y) as [[Hd Hp]|(Hny & w & Hw & Hd & Hp)].
    + rewrite Hp. rewrite Hd in Hy. by apply (tr_pred _ _ _ T y dy).
    + eauto.
  - intros y p Hy Hvis. rewrite Rvis in Hvis. rewrite Rlog.
    destruct (Rfr y Hvis) as [_ Hp]. rewrite Hp in Hy.
    apply elem_of_union in Hvis as [Hvis| ->%elem_of_singleton].
    + by apply before_app_r, (tr_order _ _ _ T).
    + destruct (inv_prev _ _ _ I v p Hy) as (_ & Hpv & _).
      rewrite (inv_log _ _ _ I), elem_of_list_to_set in Hpv.
      apply list_elem_of_split in Hpv as (l1 & l2 & Hl).
      exists l1, l2, []. rewrite Hl. by rewrite <- app_assoc.
Qed.

(** The final state of [dijkstra], with the invariant of the predecessor
    map. *)
Lemma dijkstra_returns_tree :
  exists st, dijkstra g0 s = Ok st /\ inv g0 s st /\ pq st = [] /\
    inv_tree g0 s st.
Proof.
  destruct (dijkstra_returns g0 s g0_wf) as (st & Hrun & I & Hq).
  exists st. split_and!; try done.
  apply (while_pq_invariant g0 s g0_wf (inv_tree g0 s)
           (S (adjacency_entries g0)) (dijkstra_init g0 s) st
           loop_body_inv_tree (dijkstra_init_inv g0 s g0_wf)
           dijkstra_init_inv_tree Hrun).
Qed.

(** The chain of predecessors of a visited vertex: it leads to the
    source, it is a path of the graph when read backwards, and its weight
    is the distance of the vertex. *)
Lemma visited_chain st :
  inv g0 s st -> inv_tree g0 s st ->
  forall i v, visit_log st !! i = Some v ->
  exists l dv, head l = Some v /\ last l = Some s /\
    back_links (previous st) l /\
    distances st !! v = Some (Fin dv) /\
    path_walk g0 (rev l) dv /\ (length l <= S i)%nat /\
    NoDup l /\
    forall x, x ∈ l -> exists j, (j <= i)%nat /\ visit_log st !! j = Some x.
Proof.
  intros I T i. induction i as [i IH] using lt_wf_ind. intros v Hi.
  assert (v ∈ visited st) as Hv.
  { rewrite (inv_log _ _ _ I), elem_of_list_to_set.
    by apply list_elem_of_lookup_2 in Hi. }
  destruct (decide (v = s)) as [->|Hne].
  { exists [s], 0. split_and!; try done.
    - apply T.
    - constructor.
    - simpl. lia.
    - apply NoDup_singleton.
    - intros x ->%list_elem_of_singleton. exists i. split; [lia|done]. }
  destruct (inv_visited_fin _ _ _ I v Hv) as [dv Hdv].
  destruct (tr_pred _ _ _ T v dv Hdv Hne) as [p Hp].
  destruct (tr_order _ _ _ T v p Hp Hv) as (l1 & l2 & l3 & Hlog).
  assert (i = length (l1 ++ p :: l2)) as Hidx.
  { apply (NoDup_lookup (visit_log st) _ _ v (inv_nodup _ _ _ I) Hi).
    rewrite Hlog.
    replace (l1 ++ p :: l2 ++ v :: l3) with ((l1 ++ p :: l2) ++ v :: l3)
      by (by rewrite <- app_assoc).
    by rewrite list_lookup_middle. }
  assert (visit_log st !! length l1 = Some p) as Hj.
  { rewrite Hlog. by rewrite list_lookup_middle. }
  destruct (IH (length l1)) with (v := p)
    as (lp & dp' & Hh & Hl & Hb & Hdp' & Hpw & Hlen & Hnd & Hidxs);
    [|done|].
  { rewrite Hidx, length_app. simpl. lia. }
  destruct (tr_edge _ _ _ T v p Hp) as (dp & w & Hdp & Hw & Hdv').
  rewrite Hdp in Hdp'. injection Hdp' as <-.
  rewrite Hdv in Hdv'. injection Hdv' as ->.
  destruct lp as [|p' lp]; [done|]. simpl in Hh. injection Hh as ->.
  exists (v :: p :: lp), (dp + w). split_and!; try done.
  - change (rev (v :: p :: lp)) with (rev (p :: lp) ++ [v]).
    simpl. rewrite <- app_assoc. simpl.
    apply path_walk_snoc; [|done]. exact Hpw.
  - rewrite Hidx, length_app. simpl in *. lia.
  - apply NoDup_cons. split; [|done]. intros Hin.
    destruct (Hidxs v Hin) as (j & Hj' & Hjv).
    pose proof (NoDup_lookup (visit_log st) _ _ v (inv_nodup _ _ _ I)
                  Hi Hjv) as Heq.
    rewrite Hidx, length_app in Heq. simpl in Heq. lia.
  - intros x [->|Hx]%elem_of_cons.
    + exists i. split; [lia|done].
    + destruct (Hidxs x Hx) as (j & Hj' & Hjx). exists j. split; [|done].
      rewrite Hidx, length_app. simpl. lia.
Qed.

Lemma visit_log_length st :
  inv g0 s st -> s ∈ vertices g0 ->
  (length (visit_log st) <= size (previous st))%nat.
Proof.
  intros I Hs.
  rewrite <- (size_list_to_set (C := gset string)) by apply I.
  rewrite <- (inv_log _ _ _ I), <- size_dom, (inv_dom_p _ _ _ I).
  apply subseteq_size. intros x Hx.
  destruct (inv_visited_fin _ _ _ I x Hx) as [dx Hdx].
  apply (elem_of_dom_2 (distances st)) in Hdx.
  rewrite (inv_dom_d _ _ _ I) in Hdx. set_solver.
Qed.

End Tree.

Section Reconstruct.

Variables (g0 : Graph) (s : string).
Hypothesis g0_wf : wf g0.

(** The chain of predecessors of a vertex reachable from the source, in
    the final state. *)
Lemma reachable_chain st v :
  inv g0 s st -> pq st = [] -> inv_tree g0 s st ->
  reachable g0 s v ->
  exists l dv, head l = Some v /\ last l = Some s /\
    back_links (previous st) l /\
    distances st !! v = Some (Fin dv) /\
    path_walk g0 (rev l) dv /\ (length l <= length (visit_log st))%nat /\
    NoDup l.
Proof.
  intros I Hq T Hr.
  apply (final_visited g0 s st v I Hq) in Hr.
  rewrite (inv_log _ _ _ I), elem_of_list_to_set in Hr.
  apply list_elem_of_lookup_1 in Hr as [i Hi].
  destruct (visited_chain g0 s st I T i v Hi)
    as (l & dv & Hh & Hl & Hb & Hd & Hp & Hlen & Hnd & _).
  exists l, dv. split_and!; try done.
  apply lookup_lt_Some in Hi. lia.
Qed.

(** [reconstruct_path] along a chain that ends at a vertex without
    predecessor. *)
Lemma reconstruct_path_chain fuel prev l a v root :
  head l = Some v -> last l = Some root -> back_links prev l ->
  prev !! root = Some None -> (length l <= fuel)%nat ->
  reconstruct_path_fuel fuel prev a v =
  Ok (if decide (root = a) then Some (rev l) else None).
Proof.
  intros Hh Hl Hb Hr Hf. unfold reconstruct_path_fuel.
  rewrite (walk_back_chain fuel prev l v root []) by done. simpl.
  destruct (rev_last_head l root Hl) as (l' & _ & ->).
  destruct (decide (root = a)) as [->|Hne].
  - rewrite decide_False; [done|]. by intros H.
  - by rewrite decide_True.
Qed.

End Reconstruct.

(** X4. For any weights, with the source in the vertex set,
    [reconstruct_path] to a vertex reachable from the source returns a
    path: it begins at the source, ends at the vertex, repeats no vertex,
    follows edges of the graph, and its total weight is the distance
    [dijkstra] returned for the vertex. *)
Theorem reconstruct_path_reachable (ops : list op) (s v : string) :
  s ∈ vertices (build ops) ->
  reachable (build ops) s v ->
  exists st d path, dijkstra (build ops) s = Ok st /\
    distances st !! v = Some (Fin d) /\
    reconstruct_path (previous st) s v = Ok (Some path) /\
    head path = Some s /\ last path = Some v /\
    NoDup path /\ path_walk (build ops) path d.
Proof.
  intros Hs Hr.
  destruct (dijkstra_returns_tree (build ops) s (build_wf ops))
    as (st & Hrun & I & Hq & T).
  destruct (reachable_chain (build ops) s st v I Hq T Hr)
    as (l & d & Hh & Hl & Hb & Hd & Hp & Hlen & Hnd).
  pose proof (final_previous_start (build ops) s st I Hs) as Hroot.
  pose proof (visit_log_length (build ops) s (build_wf ops) st I Hs)
    as Hsize.
  exists st, d, (rev l). split_and!; try done.
  - unfold reconstruct_path.
    rewrite (reconstruct_path_chain (S (size (previous st))) (previous st)
               l s v s) by (done || lia).
    by rewrite decide_True.
  - destruct (rev_last_head l s Hl) as (l' & _ & ->). done.
  - by apply last_rev_head.
  - by apply NoDup_ListNoDup, List.NoDup_rev, NoDup_ListNoDup.
Qed.

Lemma reconstruct_path_reachable_witness :
  exists st d path, dijkstra (build sample_ops) "A" = Ok st /\
    distances st !! "F"%string = Some (Fin d) /\
    reconstruct_path (previous st) "A" "F" = Ok (Some path) /\
    head path = Some "A"%string /\ last path = Some "F"%string /\
    NoDup path /\ path_walk (build sample_ops) path d.
Proof.
  apply (reconstruct_path_reachable sample_ops "A" "F").
  - vm_compute. reflexivity.
  - exists (0 + 2 + 8 + 6).
    apply walk_snoc with "D"%string; [|vm_compute; set_solver].
    apply walk_snoc with "C"%string; [|vm_compute; set_solver].
    apply walk_snoc with "A"%string; [|vm_compute; set_solver].
    constructor.
Defined.

Section Final.

Variables (g0 : Graph) (s : string).
Hypothesis g0_wf : wf g0.

(** The final state, with all three invariants. *)
Lemma dijkstra_returns_all :
  nonneg_weights g0 ->
  exists st, dijkstra g0 s = Ok st /\ inv g0 s st /\ pq st = [] /\
    inv_tree g0 s st /\ inv_nonneg g0 s st.
Proof.
  intros Hnn.
  destruct (dijkstra_returns_tree g0 s g0_wf) as (st & Hrun & I & Hq & T).
  destruct (dijkstra_returns_nonneg g0 s g0_wf Hnn)
    as (st' & Hrun' & _ & _ & N).
  rewrite Hrun in Hrun'. injection Hrun' as <-.
  exists st. by split_and!.
Qed.

End Final.

(** X5. With non-negative weights the path [reconstruct_path] returns to a
    reachable vertex is a shortest one: no sequence of vertices joined by
    edges from the source to the vertex weighs less. *)
Theorem reconstruct_path_shortest (ops : list op) (s v : string) :
  nonneg_weights (build ops) ->
  s ∈ vertices (build ops) ->
  reachable (build ops) s v ->
  exists st d path, dijkstra (build ops) s = Ok st /\
    reconstruct_path (previous st) s v = Ok (Some path) /\
    head path = Some s /\ last path = Some v /\
    NoDup path /\ path_walk (build ops) path d /\
    forall path' d', head path' = Some s -> last path' = Some v ->
      path_walk (build ops) path' d' -> d <= d'.
Proof.
  intros Hnn Hs Hr.
  destruct (dijkstra_returns_all (build ops) s (build_wf ops) Hnn)
    as (st & Hrun & I & Hq & T & N).
  destruct (reachable_chain (build ops) s st v I Hq T Hr)
    as (l & d & Hh & Hl & Hb & Hd & Hp & Hlen & Hnd).
  pose proof (final_previous_start (build ops) s st I Hs) as Hroot.
  pose proof (visit_log_length (build ops) s (build_wf ops) st I Hs)
    as Hsize.
  exists st, d, (rev l). split_and!; try done.
  - unfold reconstruct_path.
    rewrite (reconstruct_path_chain (S (size (previous st))) (previous st)
               l s v s) by (done || lia).
    by rewrite decide_True.
  - destruct (rev_last_head l s Hl) as (l' & _ & ->). done.
  - by apply last_rev_head.
  - by apply NoDup_ListNoDup, List.NoDup_rev, NoDup_ListNoDup.
  - intros path' d' Hh' Hl' Hp'.
    destruct (path_walk_walk (build ops) path' d' Hp')
      as (a & b & Ha & Hb' & Hw).
    rewrite Hh' in Ha. injection Ha as <-.
    rewrite Hl' in Hb'. injection Hb' as <-.
    apply (final_visited (build ops) s st v I Hq) in Hr.
    destruct (nn_final _ _ _ N v d' Hr Hw) as (dx & Hdx & Hle).
    congruence.
Qed.

Lemma reconstruct_path_shortest_witness :
  exists st d path, dijkstra (build sample_ops) "A" = Ok st /\
    reconstruct_path (previous st) "A" "F" = Ok (Some path) /\
    head path = Some "A"%string /\ last path = Some "F"%string /\
    NoDup path /\ path_walk (build sample_ops) path d /\
    forall path' d', head path' = Some "A"%string ->
      last path' = Some "F"%string ->
      path_walk (build sample_ops) path' d' -> d <= d'.
Proof.
  apply (reconstruct_path_shortest sample_ops "A" "F").
  - apply build_nonneg. repeat constructor; simpl; lia.
  - vm_compute. reflexivity.
  - exists (0 + 2 + 8 + 6).
    apply walk_snoc with "D"%string; [|vm_compute; set_solver].
    apply walk_snoc with "C"%string; [|vm_compute; set_solver].
    apply walk_snoc with "A"%string; [|vm_compute; set_solver].
    constructor.
Defined.

(** X6. After [dijkstra] from a source that is not in the vertex set,
    [reconstruct_path] from the source to itself raises [KeyError] (the
    source has no entry in the predecessor map), and to every vertex of
    the graph it returns [None]. *)
Theorem reconstruct_path_absent_source (ops : list op) (s : string) :
  s ∉ vertices (build ops) ->
  exists st, dijkstra (build ops) s = Ok st /\
    reconstruct_path (previous st) s s = Raise (KeyError s) /\
    forall t, t ∈ vertices (build ops) ->
      reconstruct_path (previous st) s t = Ok None.
Proof.
  intros Hs.
  destruct (dijkstra_returns (build ops) s (build_wf ops))
    as (st & Hrun & I & Hq).
  exists st. split; [done|]. split.
  - unfold reconstruct_path, reconstruct_path_fuel. simpl.
    assert (previous st !! s = None) as ->; [|done].
    apply not_elem_of_dom. by rewrite (inv_dom_p _ _ _ I).
  - intros t Ht.
    assert (adj (build ops) s = []) as Hadj.
    { destruct (adj (build ops) s) as [|[y w] l] eqn:E; [done|].
      destruct (build_wf ops s y w); [|done].
      rewrite E. apply list_elem_of_here. }
    assert (~ reachable (build ops) s t) as Hn.
    { intros [d Hw].
      destruct (walk_start_isolated _ _ _ _ Hadj Hw) as [-> _]. done. }
    destruct (final_unreachable _ s (build_wf ops) st t I Ht Hn) as [_ Hp].
    apply reconstruct_path_none; [done| |lia]. by intros ->.
Qed.

Lemma reconstruct_path_absent_source_witness :
  exists st, dijkstra (build sample_ops) "Z" = Ok st /\
    reconstruct_path (previous st) "Z" "Z" = Raise (KeyError "Z") /\
    forall t, t ∈ vertices (build sample_ops) ->
      reconstruct_path (previous st) "Z" t = Ok None.
Proof.
  apply (reconstruct_path_absent_source sample_ops "Z").
  vm_compute. intros H. discriminate H.
Defined.

(** X7. Over the predecessor map of [dijkstra] from [s], [reconstruct_path]
    with another start returns [None] for every vertex reachable from [s],
    even when that start lies on the path: the walk back always ends at
    [s]. *)
Theorem reconstruct_path_other_start (ops : list op) (s a v : string) :
  s ∈ vertices (build ops) ->
  reachable (build ops) s v ->
  a <> s ->
  exists st, dijkstra (build ops) s = Ok st /\
    reconstruct_path (previous st) a v = Ok None.
Proof.
  intros Hs Hr Hne.
  destruct (dijkstra_returns_tree (build ops) s (build_wf ops))
    as (st & Hrun & I & Hq & T).
  destruct (reachable_chain (build ops) s st v I Hq T Hr)
    as (l & d & Hh & Hl & Hb & Hd & Hp & Hlen & Hnd).
  pose proof (final_previous_start (build ops) s st I Hs) as Hroot.
  pose proof (visit_log_length (build ops) s (build_wf ops) st I Hs)
    as Hsize.
  exists st. split; [done|]. unfold reconstruct_path.
  rewrite (reconstruct_path_chain (S (size (previous st))) (previous st)
             l a v s) by (done || lia).
  by rewrite decide_False.
Qed.

Lemma reconstruct_path_other_start_witness :
  exists st, dijkstra (build sample_ops) "A" = Ok st /\
    reconstruct_path (previous st) "C" "B" = Ok None.
Proof.
  apply (reconstruct_path_other_start sample_ops "A" "C" "B").
  - vm_compute. reflexivity.
  - exists (0 + 4).
    apply walk_snoc with "A"%string; [|vm_compute; set_solver].
    constructor.
  - discriminate.
Defined.

(** X9. For any weights and any source, the distance [dijkstra] returns for
    a vertex is finite exactly when the vertex is reachable from the
    source, and a finite distance is the weight of a path of the graph
    from the source. *)
Theorem finite_distance_iff_reachable (ops : list op) (s : string) :
  exists st, dijkstra (build ops) s = Ok st /\
    (forall v, (exists d, distances st !! v = Some (Fin d)) <->
               reachable (build ops) s v) /\
    (forall v d, distances st !! v = Some (Fin d) ->
                 walk (build ops) s v d).
Proof.
  destruct (dijkstra_returns (build ops) s (build_wf ops))
    as (st & Hrun & I & Hq).
  exists st. split; [done|]. split.
  - intros v. split.
    + intros [d Hd]. exists d. by apply (inv_walk _ _ _ I).
    + intros Hr. apply (final_visited _ s st v I Hq) in Hr.
      by apply (inv_visited_fin _ _ _ I).
  - apply I.
Qed.

(** X10. In the predecessor map [dijkstra] returns, a vertex of the graph has
    [None] exactly when it is the source or out of reach; any other
    predecessor [p] of [v] is reachable, has [v] in its neighbor list, and
    the distance of [v] is the distance of [p] plus the weight of that
    edge. *)
Theorem previous_structure (ops : list op) (s : string) :
  s ∈ vertices (build ops) ->
  exists st, dijkstra (build ops) s = Ok st /\
    forall v, v ∈ vertices (build ops) ->
      (previous st !! v = Some None <->
       v = s \/ ~ reachable (build ops) s v) /\
      (forall p, previous st !! v = Some (Some p) ->
         reachable (build ops) s p /\
         exists w dp, (v, w) ∈ adj (build ops) p /\
           distances st !! p = Some (Fin dp) /\
           distances st !! v = Some (Fin (dp + w))).
Proof.
  intros Hs.
  destruct (dijkstra_returns_tree (build ops) s (build_wf ops))
    as (st & Hrun & I & Hq & T).
  exists st. split; [done|]. intros v Hv. split.
  - split.
    + intros Hp. destruct (decide (v = s)) as [|Hne]; [by left|].
      right. intros Hr. apply (final_visited _ s st v I Hq) in Hr.
      destruct (inv_visited_fin _ _ _ I v Hr) as [d Hd].
      destruct (tr_pred _ _ _ T v d Hd Hne) as [p Hp']. congruence.
    + intros [->|Hn].
      * by apply (final_previous_start (build ops) s st I).
      * by destruct (final_unreachable _ s (build_wf ops) st v I Hv Hn).
  - intros p Hp.
    destruct (tr_edge _ _ _ T v p Hp) as (dp & w & Hdp & Hw & Hdv).
    split.
    + exists dp. by apply (inv_walk _ _ _ I).
    + by exists w, dp.
Qed.

Lemma previous_structure_witness :
  exists st, dijkstra (build sample_ops) "A" = Ok st /\
    forall v, v ∈ vertices (build sample_ops) ->
      (previous st !! v = Some None <->
       v = "A"%string \/ ~ reachable (build sample_ops) "A" v) /\
      (forall p, previous st !! v = Some (Some p) ->
         reachable (build sample_ops) "A" p /\
         exists w dp, (v, w) ∈ adj (build sample_ops) p /\
           distances st !! p = Some (Fin dp) /\
           distances st !! v = Some (Fin (dp + w))).
Proof.
  apply (previous_structure sample_ops "A").
  vm_compute. reflexivity.
Defined.

(** X11. With non-negative weights no edge improves a returned distance:
    for every edge from [x] to [y] of weight [w] with [x] at a finite
    distance, the distance of [y] is at most that of [x] plus [w]. *)
Theorem no_edge_improves (ops : list op) (s : string) :
  nonneg_weights (build ops) ->
  exists st, dijkstra (build ops) s = Ok st /\
    forall x y w dx, (y, w) ∈ adj (build ops) x ->
      distances st !! x = Some (Fin dx) ->
      exists dy, distances st !! y = Some (Fin dy) /\ dy <= dx + w.
Proof.
  intros Hnn.
  destruct (dijkstra_returns_nonneg (build ops) s (build_wf ops) Hnn)
    as (st & Hrun & I & Hq & N).
  exists st. split; [done|]. intros x y w dx Hw Hdx.
  apply (nn_relaxed _ _ _ N x y w dx); try done.
  apply (final_visited _ s st x I Hq). exists dx.
  by apply (inv_walk _ _ _ I).
Qed.

Lemma no_edge_improves_witness :
  exists st, dijkstra (build sample_ops) "A" = Ok st /\
    forall x y w dx, (y, w) ∈ adj (build sample_ops) x ->
      distances st !! x = Some (Fin dx) ->
      exists dy, distances st !! y = Some (Fin dy) /\ dy <= dx + w.
Proof.
  apply (no_edge_improves sample_ops "A").
  apply build_nonneg. repeat constructor; simpl; lia.
Defined.

Section StepsMono.

Lemma step_distances_mono c1 c2 v d :
  step c1 c2 ->
  distances c1.2 !! v = Some (Fin d) ->
  exists d', distances c2.2 !! v = Some (Fin d') /\ d' <= d.
Proof.
  destruct 1 as [st d0 x pq' _ Hx|st d0 x pq' _ Hx
    |st cd cv e rest st' Hr|st cd cv]; simpl; intros Hd.
  - exists d. split; [done|lia].
  - exists d. split; [done|lia].
  - pose proof (relax_step cd cv [] e st st st' (relaxed_nil cd cv st) Hr)
      as R.
    by apply (rl_mono _ _ _ _ _ R).
  - exists d. split; [done|lia].
Qed.

Lemma step_distances_dom c1 c2 :
  step c1 c2 -> dom (distances c2.2) = dom (distances c1.2).
Proof.
  destruct 1 as [st d0 x pq' _ Hx|st d0 x pq' _ Hx
    |st cd cv e rest st' Hr|st cd cv]; simpl; try done.
  pose proof (relax_step cd cv [] e st st st' (relaxed_nil cd cv st) Hr)
    as R.
  apply R.
Qed.

End StepsMono.

(** X8. Along any run of the two loops the distance map keeps its keys, and
    a finite entry only ever gets smaller. *)
Theorem distances_never_increase (c1 c2 : pc * state) (v : string) (d : Z) :
  rtc step c1 c2 ->
  distances c1.2 !! v = Some (Fin d) ->
  dom (distances c2.2) = dom (distances c1.2) /\
  exists d', distances c2.2 !! v = Some (Fin d') /\ d' <= d.
Proof.
  intros Hrun. revert d. induction Hrun as [c|c1 c2 c3 H12 H23 IH];
    intros d Hd.
  - split; [done|]. exists d. split; [done|lia].
  - destruct (step_distances_mono c1 c2 v d H12 Hd) as (d1 & Hd1 & Hle1).
    destruct (IH d1 Hd1) as (Hdom & d2 & Hd2 & Hle2).
    split.
    + by rewrite Hdom, (step_distances_dom c1 c2).
    + exists d2. split; [done|lia].
Qed.

Lemma distances_never_increase_witness :
  dom (distances sample_c2.2) = dom (distances sample_c1.2) /\
  exists d', distances sample_c2.2 !! "A"%string = Some (Fin d') /\ d' <= 0.
Proof.
  apply (distances_never_increase sample_c1 sample_c2 "A" 0).
  - apply rtc_trans with
      (AtWhile,
       match for_neighbors 0 "A" (adj create_sample_graph "A") sample_c1.2
       with Ok st => st | _ => sample_c1.2 end).
    + apply for_neighbors_steps. vm_compute. reflexivity.
    + apply (while_pq_steps 20). vm_compute. reflexivity.
  - vm_compute. reflexivity.
Defined.

Section Order.

Variables (g0 : Graph) (s : string).
Hypothesis g0_wf : wf g0.
Hypothesis g0_nonneg : nonneg_weights g0.

Lemma before_snoc l v x y :
  before (l ++ [v]) x y -> before l x y \/ (y = v /\ x ∈ l).
Proof.
  intros (l1 & l2 & l3 & H).
  destruct l3 as [|z l3 _] using rev_ind.
  - replace (l1 ++ x :: l2 ++ [y]) with ((l1 ++ x :: l2) ++ [y]) in H
      by (by rewrite <- app_assoc).
    apply app_inj_tail in H as [-> ->]. right. split; [done|].
    rewrite elem_of_app, elem_of_cons. auto.
  - replace (l1 ++ x :: l2 ++ y :: l3 ++ [z])
      with ((l1 ++ x :: l2 ++ y :: l3) ++ [z]) in H.
    + apply app_inj_tail in H as [-> _]. left. by exists l1, l2, l3.
    + rewrite <- app_assoc. simpl. f_equal. f_equal.
      rewrite <- app_assoc. done.
Qed.

Lemma before_elem_of l x y : before l x y -> x ∈ l /\ y ∈ l.
Proof.
  intros (l1 & l2 & l3 & ->). split.
  - rewrite elem_of_app, elem_of_cons. auto.
  - rewrite elem_of_app, elem_of_cons, elem_of_app, elem_of_cons. auto.
Qed.

Lemma dijkstra_init_inv_order : inv_order g0 s (dijkstra_init g0 s).
Proof.
  split; simpl.
  - intros x d v Hx. by apply not_elem_of_empty in Hx.
  - intros x y (l1 & l2 & l3 & H). by destruct l1.
Qed.

Lemma loop_body_inv_order st d v pq' st' :
  inv g0 s st -> inv_order g0 s st ->
  heappop (pq st) = Some ((d, v), pq') ->
  loop_body st d v pq' = Ok st' ->
  inv_order g0 s st'.
Proof.
  intros I O Hpop Hrun.
  pose proof Hpop as (Hin & Hmin & Hlen & Hsub & Hrest)%heappop_Some.
  destruct (loop_body_cases g0 s g0_wf st d v pq' st' I Hrun)
    as [[Hv ->]|[Hv R]].
  { split; simpl.
    - intros x d1 y Hx Hy. by apply (or_pq _ _ _ O x d1 y), Hsub.
    - apply O. }
  destruct (inv_pq _ _ _ I d v Hin) as (Hwalk & dv & Hdv & Hdv_le).
  assert (dv = d) as ->.
  { pose proof (Hmin _ (inv_queued _ _ _ I v dv Hdv Hv)). simpl in *. lia. }
  destruct R as [Rg Rvis Rlog Rdd Rfr Rch Rmo Red Rpo Rpn Rfi Rpu Rpb];
    simpl in *.
  assert (Hold : forall x, x ∈ visited st ∪ {[v]} ->
            exists dx, distances st' !! x = Some (Fin dx) /\ dx <= d).
  { intros x Hx. destruct (Rfr x Hx) as [-> _].
    apply elem_of_union in Hx as [Hx| ->%elem_of_singleton].
    - by apply (or_pq _ _ _ O x d v).
    - exists d. split; [done|lia]. }
  split.
  - intros x d1 y Hx Hy. rewrite Rvis in Hx.
    destruct (Rpn _ Hy) as [H|(z & w & [= -> ->] & Hw & Hz)].
    + destruct (Rfr x Hx) as [-> _].
      apply elem_of_union in Hx as [Hx| ->%elem_of_singleton].
      * by apply (or_pq _ _ _ O x d1 y), Hsub.
      * exists d. split; [done|]. apply (Hmin (d1, y)). by apply Hsub.
    + destruct (Hold x Hx) as (dx & Hdx & Hle).
      pose proof (g0_nonneg v z w Hw). exists dx. split; [done|lia].
  - intros x y Hb. rewrite Rlog in Hb.
    apply before_snoc in Hb as [Hb|[-> Hx]].
    + destruct (before_elem_of _ _ _ Hb) as [Hx Hy].
      rewrite <- !(elem_of_list_to_set (C := gset string)) in Hx, Hy.
      rewrite <- (inv_log _ _ _ I) in Hx, Hy.
      destruct (Rfr x) as [-> _]; [set_solver|].
      destruct (Rfr y) as [-> _]; [set_solver|].
      by apply (or_log _ _ _ O).
    + rewrite <- (elem_of_list_to_set (C := gset string)) in Hx.
      rewrite <- (inv_log _ _ _ I) in Hx.
      destruct (Hold x) as (dx & Hdx & Hle); [set_solver|].
      destruct (Rfr v) as [Hfv _]; [set_solver|].
      exists dx, d. rewrite Hfv. by split_and!.
Qed.

Lemma dijkstra_returns_order :
  exists st, dijkstra g0 s = Ok st /\ inv g0 s st /\ pq st = [] /\
    inv_order g0 s st.
Proof.
  destruct (dijkstra_returns g0 s g0_wf) as (st & Hrun & I & Hq).
  exists st. split_and!; try done.
  apply (while_pq_invariant g0 s g0_wf (inv_order g0 s)
           (S (adjacency_entries g0)) (dijkstra_init g0 s) st
           loop_body_inv_order (dijkstra_init_inv g0 s g0_wf)
           dijkstra_init_inv_order Hrun).
Qed.

End Order.

(** X12. With non-negative weights [dijkstra] marks the vertices visited in
    non-decreasing order of their final distances. *)
Theorem visits_in_distance_order (ops : list op) (s : string) :
  nonneg_weights (build ops) ->
  exists st, dijkstra (build ops) s = Ok st /\
    forall x y, before (visit_log st) x y ->
      exists dx dy, distances st !! x = Some (Fin dx) /\
        distances st !! y = Some (Fin dy) /\ dx <= dy.
Proof.
  intros Hnn.
  destruct (dijkstra_returns_order (build ops) s (build_wf ops) Hnn)
    as (st & Hrun & _ & _ & O).
  exists st. split; [done|]. apply O.
Qed.

Lemma visits_in_distance_order_witness :
  exists st, dijkstra (build sample_ops) "A" = Ok st /\
    forall x y, before (visit_log st) x y ->
      exists dx dy, distances st !! x = Some (Fin dx) /\
        distances st !! y = Some (Fin dy) /\ dx <= dy.
Proof.
  apply (visits_in_distance_order sample_ops "A").
  apply build_nonneg. repeat constructor; simpl; lia.
Defined.

Section Reverse.

Variable g : Graph.

Lemma walk_cons u x v w d :
  (x, w) ∈ adj g u -> walk g x v d -> walk g u v (w + d).
Proof.
  intros Hx Hw. induction Hw as [|y v d z Hw IH Hv].
  - replace (w + 0) with (0 + w) by lia.
    apply walk_snoc with u; [constructor|done].
  - replace (w + (d + z)) with (w + d + z) by lia.
    by apply walk_snoc with y.
Qed.

Lemma walk_reverse u v d : symmetric g -> walk g u v d -> walk g v u d.
Proof.
  intros Hsym. induction 1 as [|x v d w Hw IH Hv]; [constructor|].
  replace (d + w) with (w + d) by lia.
  apply walk_cons with x; [by apply Hsym|done].
Qed.

End Reverse.

(** X13. With non-negative integer weights the returned distances are
    symmetric, the graph being undirected: the distance of [v] in the run
    from [s] is the distance of [s] in the run from [v].  The weights of
    this development are integers, whose sums are exact; with float
    weights the two runs add the same numbers in opposite orders and may
    round them differently. *)
Theorem distances_symmetric (ops : list op) (s v : string) :
  nonneg_weights (build ops) ->
  s ∈ vertices (build ops) ->
  v ∈ vertices (build ops) ->
  exists st1 st2,
    dijkstra (build ops) s = Ok st1 /\
    dijkstra (build ops) v = Ok st2 /\
    distances st1 !! v = distances st2 !! s.
Proof.
  intros Hnn Hs Hv.
  destruct (dijkstra_returns_nonneg (build ops) s (build_wf ops) Hnn)
    as (st1 & Hrun1 & I1 & Hq1 & N1).
  destruct (dijkstra_returns_nonneg (build ops) v (build_wf ops) Hnn)
    as (st2 & Hrun2 & I2 & Hq2 & N2).
  exists st1, st2. split; [done|]. split; [done|].
  pose proof (build_symmetric ops) as Hsym.
  destruct (decide (v ∈ visited st1)) as [Hvis|Hvis].
  - destruct (inv_visited_fin _ _ _ I1 v Hvis) as [d1 Hd1].
    pose proof (inv_walk _ _ _ I1 v d1 Hd1) as Hw1.
    pose proof (walk_reverse _ _ _ _ Hsym Hw1) as Hw1'.
    assert (s ∈ visited st2) as Hvis2.
    { apply (final_visited _ v st2 s I2 Hq2). by exists d1. }
    destruct (inv_visited_fin _ _ _ I2 s Hvis2) as [d2 Hd2].
    pose proof (inv_walk _ _ _ I2 s d2 Hd2) as Hw2.
    pose proof (walk_reverse _ _ _ _ Hsym Hw2) as Hw2'.
    destruct (nn_final _ _ _ N1 v d2 Hvis Hw2') as (x1 & Hx1 & Hle1).
    destruct (nn_final _ _ _ N2 s d1 Hvis2 Hw1') as (x2 & Hx2 & Hle2).
    rewrite Hd1 in Hx1. injection Hx1 as <-.
    rewrite Hd2 in Hx2. injection Hx2 as <-.
    rewrite Hd1, Hd2. do 2 f_equal. lia.
  - assert (~ reachable (build ops) s v) as Hn1.
    { intros Hr. by apply (final_visited _ s st1 v I1 Hq1) in Hr. }
    assert (~ reachable (build ops) v s) as Hn2.
    { intros [d Hw]. apply Hn1. exists d. by apply walk_reverse. }
    destruct (final_unreachable _ s (build_wf ops) st1 v I1 Hv Hn1)
      as [-> _].
    by destruct (final_unreachable _ v (build_wf ops) st2 s I2 Hs Hn2)
      as [-> _].
Qed.

Lemma distances_symmetric_witness :
  exists st1 st2,
    dijkstra (build sample_ops) "A" = Ok st1 /\
    dijkstra (build sample_ops) "F" = Ok st2 /\
    distances st1 !! "F"%string = distances st2 !! "A"%string.
Proof.
  apply (distances_symmetric sample_ops "A" "F").
  - apply build_nonneg. repeat constructor; simpl; lia.
  - vm_compute. reflexivity.
  - vm_compute. reflexivity.
Defined.

(** X14. The vertex set of a graph holds exactly the vertices given to
    [add_vertex] and the endpoints given to [add_edge]; [get_neighbors]
    adds none. *)
Theorem vertices_of_build (ops : list op) (v : string) :
  v ∈ vertices (build ops) <-> exists o, o ∈ ops /\ v ∈ op_vertices o.
Proof.
  induction ops as [|o ops IH] using rev_ind.
  - split; [set_solver|]. intros (o & Ho & _). by apply elem_of_nil in Ho.
  - rewrite build_snoc.
    assert (v ∈ vertices (apply_op (build ops) o) <->
            v ∈ vertices (build ops) \/ v ∈ op_vertices o) as ->.
    { destruct o as [x|a b w|x]; simpl.
      - set_solver.
      - set_solver.
      - rewrite get_neighbors_vertices. set_solver. }
    rewrite IH. split.
    + intros [(o' & Ho' & Hv)|Hv].
      * exists o'. split; [|done]. rewrite elem_of_app. auto.
      * exists o. split; [|done]. rewrite elem_of_app. set_solver.
    + intros (o' & [Ho'|Ho']%elem_of_app & Hv).
      * left. eauto.
      * right. apply list_elem_of_singleton in Ho'. by subst.
Qed.

Lemma endpoint_count_app ops1 ops2 u :
  endpoint_count (ops1 ++ ops2) u
  = (endpoint_count ops1 u + endpoint_count ops2 u)%nat.
Proof.
  induction ops1 as [|o ops1 IH]; simpl; [done|].
  destruct o; simpl; lia.
Qed.

(** X15. The neighbor list of a vertex has one entry for each time the
    vertex was an endpoint of an [add_edge] call, a loop counting twice;
    in total the lists hold two entries per [add_edge] call.  No call
    removes or merges entries: duplicate edges are stored again. *)
Theorem neighbor_entries_count (ops : list op) (u : string) :
  length (get_neighbors (build ops) u).1 = endpoint_count ops u /\
  adjacency_entries (build ops) = (2 * edge_calls ops)%nat.
Proof.
  split; [|apply adjacency_entries_build].
  rewrite get_neighbors_fst.
  induction ops as [|o ops IH] using rev_ind; [done|].
  rewrite build_snoc, endpoint_count_app, <- IH.
  destruct o as [x|a b w|x]; simpl.
  - rewrite adj_add_vertex. lia.
  - rewrite adj_add_edge, !length_app.
    destruct (decide (u = a)), (decide (u = b)); simpl; lia.
  - rewrite get_neighbors_adj. lia.
Qed.

(** X16. [get_neighbors] changes no vertex and no neighbor list; for a
    vertex without a key it returns the empty list and adds the key, for
    one with a key it leaves the graph as it is; a second call returns the
    same list and changes nothing. *)
Theorem get_neighbors_idempotent (g : Graph) (v : string) :
  get_neighbors (get_neighbors g v).2 v = get_neighbors g v /\
  vertices (get_neighbors g v).2 = vertices g /\
  (forall u, (get_neighbors (get_neighbors g v).2 u).1
             = (get_neighbors g u).1) /\
  (edges g !! v = None ->
   (get_neighbors g v).1 = [] /\
   edges (get_neighbors g v).2 = <[v := []]> (edges g)) /\
  (is_Some (edges g !! v) -> (get_neighbors g v).2 = g).
Proof.
  split_and!.
  - unfold get_neighbors, defaultdict_get.
    destruct (edges g !! v) as [l|] eqn:E; simpl.
    + by rewrite E.
    + by rewrite lookup_insert_eq.
  - apply get_neighbors_vertices.
  - intros u. by rewrite !get_neighbors_fst, get_neighbors_adj.
  - intros E. unfold get_neighbors, defaultdict_get. by rewrite E.
  - intros [l E]. unfold get_neighbors, defaultdict_get. rewrite E.
    by destruct g.
Qed.

(** X17. [add_edge] adds both endpoints to the vertex set and appends:
    the neighbor list of [from_vertex] gets the entry for [to_vertex] at
    its end, then that of [to_vertex] the entry for [from_vertex]; a loop
    gets both entries; every other list is as before. *)
Theorem add_edge_appends (g : Graph) (a b u : string) (w : Z) :
  vertices (add_edge g a b w) = vertices g ∪ {[a; b]} /\
  (get_neighbors (add_edge g a b w) u).1 =
  ((get_neighbors g u).1 ++ (if decide (u = a) then [(b, w)] else []))
    ++ (if decide (u = b) then [(a, w)] else []).
Proof.
  split.
  - unfold add_edge; simpl. set_solver.
  - rewrite !get_neighbors_fst. apply adj_add_edge.
Qed.

Lemma heappop_singleton (x : Z * string) : heappop [x] = Some (x, []).
Proof. unfold heappop. simpl. by rewrite decide_True. Qed.

Lemma while_pq_S fuel st d v pq' :
  heappop (pq st) = Some ((d, v), pq') ->
  while_pq (S fuel) st =
  match loop_body st d v pq' with
  | Ok st' => while_pq fuel st'
  | Raise x => Raise x
  | OutOfFuel => OutOfFuel
  end.
Proof. intros H. simpl. by rewrite H. Qed.

(** X18. On a graph whose first neighbor of the source is not in the vertex
    set (the adjacency mapping was written without [add_edge]),
    [dijkstra] raises [KeyError] for that neighbor. *)
Theorem dijkstra_key_error (g : Graph) (s y : string) (w : Z)
    (rest : list (string * Z)) :
  adj g s = (y, w) :: rest ->
  y ∉ vertices g ->
  y <> s ->
  dijkstra g s = Raise (KeyError y).
Proof.
  intros Hadj Hy Hne. unfold dijkstra, dijkstra_fuel.
  rewrite (while_pq_S _ _ 0 s []) by apply heappop_singleton.
  rewrite loop_body_visit by apply not_elem_of_empty.
  simpl. rewrite Hadj. simpl.
  rewrite decide_False by set_solver.
  rewrite lookup_insert_ne by done.
  assert (gset_to_gmap Inf (vertices g) !! y = None) as ->; [|done].
  by apply lookup_gset_to_gmap_None.
Qed.

Lemma dijkstra_key_error_witness :
  dijkstra {| vertices := {["A"%string]};
              edges := {["A"%string := [("Q"%string, 1)]]} |} "A"
  = Raise (KeyError "Q").
Proof.
  apply (dijkstra_key_error _ "A" "Q" 1 []).
  - reflexivity.
  - vm_compute. intros H. discriminate H.
  - discriminate.
Defined.

Section Compose.

Lemma walk_build_app ops more s v d :
  walk (build ops) s v d -> walk (build (ops ++ more)) s v d.
Proof.
  induction 1 as [|x v d w Hw IH Hv]; [constructor|].
  apply walk_snoc with x; [done|].
  unfold build. rewrite foldl_app. by apply foldl_apply_op_adj_mono.
Qed.

End Compose.

(** X19. More calls on the graph never move a vertex away: with non-negative
    weights, a vertex at a finite distance before further [add_vertex],
    [add_edge] and [get_neighbors] calls is at a finite distance that is
    no larger after them. *)
Theorem more_calls_never_farther (ops more : list op) (s : string) :
  nonneg_weights (build (ops ++ more)) ->
  exists st st',
    dijkstra (build ops) s = Ok st /\
    dijkstra (build (ops ++ more)) s = Ok st' /\
    forall v d, distances st !! v = Some (Fin d) ->
      exists d', distances st' !! v = Some (Fin d') /\ d' <= d.
Proof.
  intros Hnn.
  destruct (dijkstra_returns (build ops) s (build_wf ops))
    as (st & Hrun & I & Hq).
  destruct (dijkstra_returns_nonneg (build (ops ++ more)) s
              (build_wf _) Hnn) as (st' & Hrun' & I' & Hq' & N').
  exists st, st'. split; [done|]. split; [done|].
  intros v d Hd.
  pose proof (walk_build_app ops more s v d (inv_walk _ _ _ I v d Hd))
    as Hw.
  apply (nn_final _ _ _ N'); [|done].
  apply (final_visited _ s st' v I' Hq'). by exists d.
Qed.

Lemma more_calls_never_farther_witness :
  exists st st',
    dijkstra (build sample_ops) "A" = Ok st /\
    dijkstra (build (sample_ops ++ [AddEdge "A" "F" 1])) "A" = Ok st' /\
    forall v d, distances st !! v = Some (Fin d) ->
      exists d', distances st' !! v = Some (Fin d') /\ d' <= d.
Proof.
  apply (more_calls_never_farther sample_ops [AddEdge "A" "F" 1] "A").
  apply build_nonneg. repeat constructor; simpl; lia.
Defined.

(** X20. A [get_neighbors] call before [dijkstra] does not change the
    dictionaries it returns, though the call may add a key to the
    adjacency mapping. *)
Theorem reads_do_not_change_result (ops : list op) (s u : string) :
  exists st1 st2,
    dijkstra (build ops) s = Ok st1 /\
    dijkstra (build (ops ++ [GetNeighbors u])) s = Ok st2 /\
    distances st2 = distances st1 /\
    previous st2 = previous st1.
Proof.
  destruct (dijkstra_returns (build ops) s (build_wf ops))
    as (st1 & Hrun1 & _).
  destruct (dijkstra_returns (build (ops ++ [GetNeighbors u])) s
              (build_wf _)) as (st2 & Hrun2 & _).
  exists st1, st2. split; [done|]. split; [done|].
  assert (same_view (build ops) (build (ops ++ [GetNeighbors u]))) as Hv.
  { rewrite build_snoc. simpl. split.
    - by rewrite get_neighbors_vertices.
    - intros x. by rewrite get_neighbors_adj. }
  destruct (dijkstra_same_view _ _ s st1 st2 Hv Hrun1 Hrun2)
    as (_ & Hd & Hp & _).
  by split.
Qed.
